(** * IndexedDbJobQueue: a shallow embedding of the browser job queue

    The class [IndexedDbJobQueue] of the storage package keeps its jobs in
    one IndexedDB object store, [jobs], keyed by the job's [id], and reads it
    through four indexes.  Every method opens one transaction and settles one
    promise, so a method is embedded as a function from the queue state to
    the promise's outcome and the next state.

    Layout: the object store and its indexes (module [IDB]); JavaScript
    values; the job entity and the error classes; the queue's methods; the
    test job; then the lemmas on the store, the theorems on the methods, and
    further facts on what the operations keep and how they compose. *)

From Stdlib Require Import ZArith List String Ascii Bool Lia Sorted.
From Stdlib Require Import DecimalString.
Import ListNotations.
Local Open Scope string_scope.
Local Open Scope Z_scope.
#[local] Set Warnings "-register-all".


(** ** The object store *)

Module IDB.

(** A key, as the store orders them.  The queue uses strings (ids, status
    names, fingerprints), dates ([runAfter]) and arrays of these (the keys
    of a compound index); numbers are kept for the order below. *)
Inductive key : Type :=
| KNum (n : Z)
| KDate (t : Z)
| KStr (s : string)
| KArr (ks : list key).

(** The order of keys: number < date < string < array; two arrays compare
    item by item, a proper prefix being the smaller. *)
Fixpoint key_compare (a b : key) {struct a} : comparison :=
  match a, b with
  | KNum x, KNum y => Z.compare x y
  | KNum _, _ => Lt
  | KDate _, KNum _ => Gt
  | KDate x, KDate y => Z.compare x y
  | KDate _, _ => Lt
  | KStr _, (KNum _ | KDate _) => Gt
  | KStr x, KStr y => String.compare x y
  | KStr _, KArr _ => Lt
  | KArr xs, KArr ys =>
      (fix items (xs ys : list key) {struct xs} : comparison :=
         match xs, ys with
         | [], [] => Eq
         | [], _ :: _ => Lt
         | _ :: _, [] => Gt
         | x :: xs', y :: ys' =>
             match key_compare x y with
             | Eq => items xs' ys'
             | c => c
             end
         end) xs ys
  | KArr _, _ => Gt
  end.

Definition key_leb (a b : key) : bool :=
  match key_compare a b with Gt => false | _ => true end.

Definition key_ltb (a b : key) : bool :=
  match key_compare a b with Lt => true | _ => false end.

Definition key_eqb (a b : key) : bool :=
  match key_compare a b with Eq => true | _ => false end.

(** Induction on keys that reaches the items of an array. *)
Definition key_nested_ind (P : key -> Prop)
    (fNum : forall n, P (KNum n)) (fDate : forall t, P (KDate t))
    (fStr : forall s, P (KStr s))
    (fArr : forall ks, Forall P ks -> P (KArr ks)) : forall k, P k :=
  fix F (k : key) : P k :=
    match k with
    | KNum n => fNum n
    | KDate t => fDate t
    | KStr s => fStr s
    | KArr ks =>
        fArr ks
          ((fix G (l : list key) : Forall P l :=
              match l with
              | [] => Forall_nil P
              | x :: l' => Forall_cons x (F x) (G l')
              end) ks)
    end.

(** IDBKeyRange: optional bounds, each open or closed. *)
Record KeyRange : Type := mkRange {
  lower : option key;
  upper : option key;
  lowerOpen : bool;
  upperOpen : bool
}.

(** [IDBKeyRange.only(k)]: the range that holds [k] alone.  A query given
    as a plain key is read as this range. *)
Definition only (k : key) : KeyRange :=
  {| lower := Some k; upper := Some k; lowerOpen := false; upperOpen := false |}.

Definition in_range (r : KeyRange) (k : key) : bool :=
  match lower r with
  | None => true
  | Some lo => if lowerOpen r then key_ltb lo k else key_leb lo k
  end
  &&
  match upper r with
  | None => true
  | Some hi => if upperOpen r then key_ltb k hi else key_leb k hi
  end.

Section Store.
Variable V : Type.

(** The records of an object store: (key, value), ascending by key. *)
Definition store : Type := list (key * V).

Fixpoint os_get (k : key) (s : store) : option V :=
  match s with
  | [] => None
  | (k', v) :: s' => if key_eqb k k' then Some v else os_get k s'
  end.

(** Placing a record with a new key: before the first larger key. *)
Fixpoint os_insert (k : key) (v : V) (s : store) : store :=
  match s with
  | [] => [(k, v)]
  | (k', v') :: s' =>
      if key_ltb k k' then (k, v) :: s else (k', v') :: os_insert k v s'
  end.

Fixpoint os_replace (k : key) (v : V) (s : store) : store :=
  match s with
  | [] => []
  | (k', v') :: s' =>
      if key_eqb k k' then (k', v) :: s' else (k', v') :: os_replace k v s'
  end.

(** [store.add]: fails (a ConstraintError) when the key is taken. *)
Definition os_add (k : key) (v : V) (s : store) : option store :=
  match os_get k s with
  | Some _ => None
  | None => Some (os_insert k v s)
  end.

(** [store.put] and [cursor.update]: overwrite, or insert when new. *)
Definition os_put (k : key) (v : V) (s : store) : store :=
  match os_get k s with
  | Some _ => os_replace k v s
  | None => os_insert k v s
  end.

Definition os_count (s : store) : nat := List.length s.

Definition os_clear (s : store) : store := [].

(** *** Indexes

    An index over a key path holds, for every record whose value yields
    a key at that path, the entry (index key, primary key, value); its
    entries ascend by index key, then by primary key.  A record whose
    value yields no key at the path has no entry. *)
Definition entry : Type := (key * key * V)%type.

Definition entry_key (e : entry) : key := fst (fst e).
Definition entry_primaryKey (e : entry) : key := snd (fst e).
Definition entry_value (e : entry) : V := snd e.

Definition entry_leb (e1 e2 : entry) : bool :=
  match key_compare (entry_key e1) (entry_key e2) with
  | Lt => true
  | Gt => false
  | Eq => key_leb (entry_primaryKey e1) (entry_primaryKey e2)
  end.

Fixpoint entry_insert (e : entry) (l : list entry) : list entry :=
  match l with
  | [] => [e]
  | e' :: l' => if entry_leb e e' then e :: l else e' :: entry_insert e l'
  end.

Section Index.
Variable keyPath : V -> option key.

Fixpoint index_entries (s : store) : list entry :=
  match s with
  | [] => []
  | (pk, v) :: s' =>
      match keyPath v with
      | Some ik => entry_insert (ik, pk, v) (index_entries s')
      | None => index_entries s'
      end
  end.

(** [index.openCursor(range, "next")]: the first entry in the range. *)
Definition idx_openCursor (r : KeyRange) (s : store) : option entry :=
  find (fun e => in_range r (entry_key e)) (index_entries s).

(** [index.get(query)]: the value of the first entry in the range. *)
Definition idx_get (r : KeyRange) (s : store) : option V :=
  option_map entry_value (idx_openCursor r s).

(** [index.getAll(query, count)]: the values of the entries in the
    range, in index order, at most [count] of them when one is given
    and is not 0. *)
Definition idx_getAll (r : KeyRange) (count : option nat) (s : store) : list V :=
  let all := map entry_value
               (filter (fun e => in_range r (entry_key e)) (index_entries s)) in
  match count with
  | None | Some O => all
  | Some n => firstn n all
  end.
End Index.
End Store.

Arguments os_get {V}.
Arguments os_insert {V}.
Arguments os_replace {V}.
Arguments os_add {V}.
Arguments os_put {V}.
Arguments os_count {V}.
Arguments os_clear {V}.
Arguments entry_key {V}.
Arguments entry_primaryKey {V}.
Arguments entry_value {V}.
Arguments entry_insert {V}.
Arguments index_entries {V}.
Arguments idx_openCursor {V}.
Arguments idx_get {V}.
Arguments idx_getAll {V}.

End IDB.

Import IDB.

(** ** JavaScript values

    [Input] and [Output] are type parameters of the queue; a job's input and
    output are structured-clonable values.  Numbers are the integral ones. *)
Inductive JsValue : Type :=
| JsNull
| JsBool (b : bool)
| JsNum (n : Z)
| JsStr (s : string)
| JsArr (items : list JsValue)
| JsObj (fields : list (string * JsValue)).

(** The truth value of [v] in a condition: [v ? a : b]. *)
Definition ToBoolean (v : JsValue) : bool :=
  match v with
  | JsNull => false
  | JsBool b => b
  | JsNum n => negb (n =? 0)
  | JsStr s => negb (s =? "")%string
  | JsArr _ => true
  | JsObj _ => true
  end.

(** The string a value is converted to where a string is expected, as
    [JSON.parse(v)] does with its argument.  How a number is written
    (digits, or an exponent form for large magnitudes) is the platform's
    [Number::toString], taken as the parameter [Number_toString]. *)
Fixpoint ToString (Number_toString : Z -> string) (v : JsValue) : string :=
  match v with
  | JsNull => "null"
  | JsBool true => "true"
  | JsBool false => "false"
  | JsNum n => Number_toString n
  | JsStr s => s
  | JsArr items =>
      String.concat ","
        (map (fun x => match x with
                       | JsNull => ""
                       | _ => ToString Number_toString x
                       end) items)
  | JsObj _ => "[object Object]"
  end.

(** [n || 0] on a number. *)
Definition or_zero (n : Z) : Z := if n =? 0 then 0 else n.

(** ** Jobs and errors *)

(** Modelled from the spec: the enumeration [JobStatus] of ellmers-core, which
    the queue imports; the spec's data model lists its six members. *)
Inductive JobStatus : Type :=
| PENDING | PROCESSING | ABORTING | COMPLETED | FAILED | SKIPPED.

(** Modelled from the spec: the string each [JobStatus] member stands for in a
    stored record (the enumeration's values are ellmers-core's); the members'
    own names are used, and only their being distinct strings matters. *)
Definition status_name (s : JobStatus) : string :=
  match s with
  | PENDING => "PENDING"
  | PROCESSING => "PROCESSING"
  | ABORTING => "ABORTING"
  | COMPLETED => "COMPLETED"
  | FAILED => "FAILED"
  | SKIPPED => "SKIPPED"
  end.

Definition JobStatus_eqb (a b : JobStatus) : bool :=
  match a, b with
  | PENDING, PENDING | PROCESSING, PROCESSING | ABORTING, ABORTING
  | COMPLETED, COMPLETED | FAILED, FAILED | SKIPPED, SKIPPED => true
  | _, _ => false
  end.

(** Modelled from the spec: the class [Job] of ellmers-core, with the fields
    the queue reads or writes.  [id], [jobRunId], [queueName] and
    [fingerprint] may be absent on a job that was not added yet; [error] is
    absent until a failure; [output] is [JsNull] until a success; [runAfter]
    is a date, in milliseconds. *)
Record Job : Type := mkJob {
  id : option string;
  jobRunId : option string;
  queueName : option string;
  taskType : string;
  input : JsValue;
  fingerprint : option string;
  status : JobStatus;
  output : JsValue;
  error : option string;
  retries : Z;
  maxRetries : Z;
  runAfter : Z
}.

Definition set_id (x : option string) (j : Job) : Job :=
  mkJob x (jobRunId j) (queueName j) (taskType j) (input j) (fingerprint j)
        (status j) (output j) (error j) (retries j) (maxRetries j) (runAfter j).

Definition set_jobRunId (x : option string) (j : Job) : Job :=
  mkJob (id j) x (queueName j) (taskType j) (input j) (fingerprint j)
        (status j) (output j) (error j) (retries j) (maxRetries j) (runAfter j).

Definition set_queueName (x : option string) (j : Job) : Job :=
  mkJob (id j) (jobRunId j) x (taskType j) (input j) (fingerprint j)
        (status j) (output j) (error j) (retries j) (maxRetries j) (runAfter j).

Definition set_fingerprint (x : option string) (j : Job) : Job :=
  mkJob (id j) (jobRunId j) (queueName j) (taskType j) (input j) x
        (status j) (output j) (error j) (retries j) (maxRetries j) (runAfter j).

Definition set_status (x : JobStatus) (j : Job) : Job :=
  mkJob (id j) (jobRunId j) (queueName j) (taskType j) (input j) (fingerprint j)
        x (output j) (error j) (retries j) (maxRetries j) (runAfter j).

Definition set_output (x : JsValue) (j : Job) : Job :=
  mkJob (id j) (jobRunId j) (queueName j) (taskType j) (input j) (fingerprint j)
        (status j) x (error j) (retries j) (maxRetries j) (runAfter j).

Definition set_error (x : option string) (j : Job) : Job :=
  mkJob (id j) (jobRunId j) (queueName j) (taskType j) (input j) (fingerprint j)
        (status j) (output j) x (retries j) (maxRetries j) (runAfter j).

Definition set_retries (x : Z) (j : Job) : Job :=
  mkJob (id j) (jobRunId j) (queueName j) (taskType j) (input j) (fingerprint j)
        (status j) (output j) (error j) x (maxRetries j) (runAfter j).

Definition set_runAfter (x : Z) (j : Job) : Job :=
  mkJob (id j) (jobRunId j) (queueName j) (taskType j) (input j) (fingerprint j)
        (status j) (output j) (error j) (retries j) (maxRetries j) x.

(** Modelled from the spec: the error classes of ellmers-core that [complete]
    tells apart with [instanceof]: a retryable error carries its [retryDate];
    the abort-signal error and any other [JobError] take the last branch (were
    the abort-signal error a subclass of the permanent one it would take the
    branch before, which assigns the same status). *)
Inductive JobErrorClass : Type :=
| RetryableJobError (retryDate : Z)
| PermanentJobError
| AbortSignalJobError
| OtherJobError.

(** A [JobError]: its class and its [message]. *)
Record JobError : Type := mkJobError {
  class : JobErrorClass;
  message : string
}.

Definition Job_id (j : Job) : option string := id j.

(** ** The queue *)

(** How a promise returned by a method ends.  The value of a rejection is
    null, a DOMException of the store (by its name) or a [new Error(msg)].
    [Unsettled]: the request's handler threw before calling [resolve] or
    [reject]. *)
Inductive Rejection : Type :=
| Null
| DOMException (name : string)
| Error (msg : string).

(** [tx.error] as [tx.onerror] reads it in [add].  The handler runs while
    the error event of the failed [store.add] request is dispatched and
    bubbles to the transaction; the transaction is aborted, and its [error]
    set to the request's ConstraintError, only after that dispatch.  Inside
    the handler [tx.error] is still null. *)
Definition tx_error : Rejection := Null.

Inductive Promise (A : Type) : Type :=
| Resolved (a : A)
| Rejected (e : Rejection)
| Unsettled.

Arguments Resolved {A}.
Arguments Rejected {A}.
Arguments Unsettled {A}.

(** The calls a method makes into its base class [JobQueue], in order. *)
Inductive BaseCall : Type :=
| onCompleted (jobId : option string) (st : JobStatus) (out : JsValue)
              (err : option JobError)
| abortJob (jobId : string).

(** The state a method runs in: the queue's name, the object store [jobs],
    how many ids [nanoid] has handed out, and the base-class calls so far. *)
Record Queue : Type := mkQueue {
  queue : string;
  jobs : store Job;
  nanoids : nat;
  calls : list BaseCall
}.

Definition new_queue (name : string) : Queue :=
  {| queue := name; jobs := []; nanoids := O; calls := [] |}.

Definition with_jobs (s : store Job) (q : Queue) : Queue :=
  {| queue := queue q; jobs := s; nanoids := nanoids q; calls := calls q |}.

Definition with_nanoids (n : nat) (q : Queue) : Queue :=
  {| queue := queue q; jobs := jobs q; nanoids := n; calls := calls q |}.

Definition with_call (c : BaseCall) (q : Queue) : Queue :=
  {| queue := queue q; jobs := jobs q; nanoids := nanoids q;
     calls := calls q ++ [c] |}.

(** The key paths of the store and of its four indexes. *)
Definition keyPath_id (j : Job) : option key :=
  option_map KStr (id j).

Definition keyPath_status (j : Job) : option key :=
  Some (KStr (status_name (status j))).

Definition keyPath_status_runAfter (j : Job) : option key :=
  Some (KArr [KStr (status_name (status j)); KDate (runAfter j)]).

Definition keyPath_jobRunId (j : Job) : option key :=
  option_map KStr (jobRunId j).

Definition keyPath_taskType_fingerprint_status (j : Job) : option key :=
  match fingerprint j with
  | Some f => Some (KArr [KStr (taskType j); KStr f; KStr (status_name (status j))])
  | None => None
  end.

(** [store.put(job)]: the key is read from the job at the store's key path;
    [None] when the job has none (the call throws). *)
Definition store_put (j : Job) (s : store Job) : option (store Job) :=
  match keyPath_id j with
  | Some k => Some (os_put k j s)
  | None => None
  end.

(** [cursor.update(job)] at the record of key [pk]; [None] when the job's
    own key is not [pk] (the call throws). *)
Definition cursor_update (pk : key) (j : Job) (s : store Job) : option (store Job) :=
  match keyPath_id j with
  | Some k => if key_eqb k pk then Some (os_put pk j s) else None
  | None => None
  end.

(** [x ?? nanoid()]: the value and the number of ids handed out after it. *)
Definition or_nanoid (nanoid : nat -> string) (x : option string) (n : nat)
  : string * nat :=
  match x with
  | Some v => (v, n)
  | None => (nanoid n, S n)
  end.

Section Methods.

(** What the queue imports and the platform provides, taken as parameters:
    [nanoid n] is the id the [n]-th call of [nanoid()] returns,
    [makeFingerprint] is the function of [util/Misc], [JSON_parse] is
    [JSON.parse], [None] when it throws, and [Number_toString] writes a
    number as a string.  [settles_later] says whether the promise of
    [makeFingerprint] settles in a later task than the one that awaits it:
    a transaction that was opened before the [await] and has no request
    pending has finished by then. *)
Variable nanoid : nat -> string.
Variable makeFingerprint : JsValue -> string.
Variable JSON_parse : string -> option JsValue.
Variable Number_toString : Z -> string.
Variable settles_later : bool.

(** The id [add] stores the job under: its own, or a new one. *)
Definition assigned_id (job : Job) (q : Queue) : string :=
  fst (or_nanoid nanoid (id job) (nanoids q)).

(** The record [add] hands to the store: the job with its id and run id
    filled in, the queue's name and the fingerprint of its input. *)
Definition prepared (job : Job) (q : Queue) : Job :=
  set_fingerprint (Some (makeFingerprint (input job)))
    (set_queueName (Some (queue q))
       (set_jobRunId
          (Some (fst (or_nanoid nanoid (jobRunId job)
                        (snd (or_nanoid nanoid (id job) (nanoids q))))))
          (set_id (Some (assigned_id job q)) job))).

Definition add (job : Job) (q : Queue) : Promise string * Queue :=
  let i := or_nanoid nanoid (id job) (nanoids q) in
  let r := or_nanoid nanoid (jobRunId job) (snd i) in
  let job' :=
    set_fingerprint (Some (makeFingerprint (input job)))
      (set_queueName (Some (queue q))
         (set_jobRunId (Some (fst r))
            (set_id (Some (fst i)) job))) in
  match os_add (KStr (fst i)) job' (jobs q) with
  | Some s => (Resolved (fst i), with_jobs s (with_nanoids (snd r) q))
  | None => (Rejected tx_error, with_nanoids (snd r) q)
  end.

Definition get (id : string) (q : Queue) : Promise (option Job) :=
  Resolved (os_get (KStr id) (jobs q)).

Definition peek (num : nat) (q : Queue) : Promise (list Job) :=
  Resolved (idx_getAll keyPath_status_runAfter
              (only (KStr (status_name PENDING))) (Some num) (jobs q)).

Definition processing (q : Queue) : Promise (list Job) :=
  Resolved (idx_getAll keyPath_status
              (only (KStr (status_name PROCESSING))) None (jobs q)).

Definition aborting (q : Queue) : Promise (list Job) :=
  Resolved (idx_getAll keyPath_status
              (only (KStr (status_name ABORTING))) None (jobs q)).

Definition next (q : Queue) : Promise (option Job) * Queue :=
  match idx_openCursor keyPath_status_runAfter
          (only (KStr (status_name PENDING))) (jobs q) with
  | Some cursor =>
      let job := set_status PROCESSING (entry_value cursor) in
      match cursor_update (entry_primaryKey cursor) job (jobs q) with
      | Some s => (Resolved (Some job), with_jobs s q)
      | None => (Unsettled, q)
      end
  | None => (Resolved None, q)
  end.

Definition size (q : Queue) : Promise nat :=
  Resolved (os_count (jobs q)).

(** The job [complete] writes back, from the stored one. *)
Definition completed_job (job : Job) (output : JsValue) (error : option JobError)
  : Job :=
  match error with
  | Some e =>
      let job1 := set_error (Some (message e)) job in
      let job2 := set_retries (or_zero (retries job1) + 1) job1 in
      match class e with
      | RetryableJobError retryDate =>
          if retries job2 >=? maxRetries job2
          then set_status FAILED job2
          else set_runAfter retryDate (set_status PENDING job2)
      | PermanentJobError => set_status FAILED job2
      | _ => set_status FAILED job2
      end
  | None => set_output output (set_status COMPLETED job)
  end.

Definition complete (id : string) (output : JsValue) (error : option JobError)
    (q : Queue) : Promise unit * Queue :=
  match os_get (KStr id) (jobs q) with
  | None => (Rejected (Error ("Job " ++ id ++ " not found")), q)
  | Some job0 =>
      let job := completed_job job0 output error in
      match store_put job (jobs q) with
      | None => (Unsettled, q)
      | Some s =>
          let q1 := with_jobs s q in
          let q2 :=
            if JobStatus_eqb (status job) COMPLETED
               || JobStatus_eqb (status job) FAILED
            then with_call (onCompleted (Job_id job) (status job) output error) q1
            else q1 in
          (Resolved tt, q2)
      end
  end.

Definition abort (jobId : string) (q : Queue) : Promise unit * Queue :=
  match os_get (KStr jobId) (jobs q) with
  | None => (Rejected (Error ("Job " ++ jobId ++ " not found")), q)
  | Some job0 =>
      let job := set_status ABORTING job0 in
      match store_put job (jobs q) with
      | None => (Unsettled, q)
      | Some s => (Resolved tt, with_call (abortJob jobId) (with_jobs s q))
      end
  end.

Definition getJobsByRunId (jobRunId : string) (q : Queue) : Promise (list Job) :=
  Resolved (idx_getAll keyPath_jobRunId (only (KStr jobRunId)) None (jobs q)).

Definition deleteAll (q : Queue) : Promise unit * Queue :=
  (Resolved tt, with_jobs (os_clear (jobs q)) q).

(** [outputForInput] opens its transaction and takes the object store
    first, and awaits [makeFingerprint] only then.  When the fingerprint
    settles in a later task the transaction has finished, [store.index]
    throws an InvalidStateError and the method rejects with it. *)
Definition outputForInput (taskType : string) (input : JsValue) (q : Queue)
  : Promise JsValue :=
  let fingerprint := makeFingerprint input in
  if settles_later
  then Rejected (DOMException "InvalidStateError")
  else
    let queryKey :=
      KArr [KStr taskType; KStr fingerprint; KStr (status_name COMPLETED)] in
    match idx_get keyPath_taskType_fingerprint_status (only queryKey) (jobs q) with
    | Some result =>
        if ToBoolean (output result)
        then match JSON_parse (ToString Number_toString (output result)) with
             | Some v => Resolved v
             | None => Unsettled
             end
        else Resolved JsNull
    | None => Resolved JsNull
    end.

(** What [outputForInput] settles with once the index has found a job. *)
Definition reparsed (out : JsValue) : Promise JsValue :=
  if ToBoolean out
  then match JSON_parse (ToString Number_toString out) with
       | Some v => Resolved v
       | None => Unsettled
       end
  else Resolved JsNull.

End Methods.

(** ** Runs of the queue

    A state is reached from a new queue by a sequence of the methods that
    write to the store. *)
Inductive Op : Type :=
| OpAdd (job : Job)
| OpNext
| OpComplete (id : string) (output : JsValue) (error : option JobError)
| OpAbort (jobId : string).

Definition exec (nanoid : nat -> string) (makeFingerprint : JsValue -> string)
    (o : Op) (q : Queue) : Queue :=
  match o with
  | OpAdd job => snd (add nanoid makeFingerprint job q)
  | OpNext => snd (next q)
  | OpComplete id output error => snd (complete id output error q)
  | OpAbort jobId => snd (abort jobId q)
  end.

Definition run (nanoid : nat -> string) (makeFingerprint : JsValue -> string)
    (ops : list Op) (q : Queue) : Queue :=
  fold_left (fun q o => exec nanoid makeFingerprint o q) ops q.

(** The job stored under [id], if any. *)
Definition stored (q : Queue) (id : string) : option Job :=
  os_get (KStr id) (jobs q).

(** The status graph as the specification draws it:
    PENDING -> PROCESSING -> COMPLETED | FAILED | PENDING | ABORTING,
    and ABORTING -> FAILED. *)
Definition spec_edge (a b : JobStatus) : bool :=
  match a, b with
  | PENDING, PROCESSING
  | PROCESSING, COMPLETED
  | PROCESSING, FAILED
  | PROCESSING, PENDING
  | PROCESSING, ABORTING
  | ABORTING, FAILED => true
  | _, _ => false
  end.



(** ** Sample data

    The jobs the generic queue tests build, [new TestJob({ taskType, input })],
    with the remaining fields as a job has them before it is added and run;
    and stand-ins for [nanoid] and [makeFingerprint] to run the methods on
    them. *)
Definition TestJob (id : option string) (taskType : string) (data : string) : Job :=
  {| id := id; jobRunId := None; queueName := None;
     taskType := taskType; input := JsObj [("data", JsStr data)];
     fingerprint := None; status := PENDING; output := JsNull; error := None;
     retries := 0; maxRetries := 10; runAfter := 0 |}.

Definition sample_nanoid (n : nat) : string :=
  "id-" ++ NilZero.string_of_int (Z.to_int (Z.of_nat n)).

Definition sample_fingerprint (v : JsValue) : string :=
  match v with
  | JsObj [(_, JsStr s)] => "fp-" ++ s
  | _ => "fp"
  end.

Definition sample_queue : Queue := new_queue "local".

(** The queue after [add] of a first test job under the id "a", and that job
    as the store then holds it. *)
Definition queue_a : Queue :=
  snd (add sample_nanoid sample_fingerprint
         (TestJob (Some "a") "task1" "input1") sample_queue).

Definition job_a : Job :=
  {| id := Some "a"; jobRunId := Some "id-0"; queueName := Some "local";
     taskType := "task1"; input := JsObj [("data", JsStr "input1")];
     fingerprint := Some "fp-input1"; status := PENDING; output := JsNull;
     error := None; retries := 0; maxRetries := 10; runAfter := 0 |}.

(** Scenario S2: A, then B, added with the same [runAfter]. *)
Definition queue_two : Queue :=
  run sample_nanoid sample_fingerprint
    [OpAdd (TestJob (Some "a") "task1" "input1");
     OpAdd (TestJob (Some "b") "task2" "input2")]
    sample_queue.

(** The same two jobs, the one added first under the later id. *)
Definition queue_b_then_a : Queue :=
  run sample_nanoid sample_fingerprint
    [OpAdd (TestJob (Some "b") "task1" "input1");
     OpAdd (TestJob (Some "a") "task2" "input2")]
    sample_queue.

(** Scenario S1: a test job is added and completed with an object. *)
Definition output_S1 : JsValue := JsObj [("result", JsStr "success")].

Definition queue_S1 (nanoid : nat -> string) (makeFingerprint : JsValue -> string)
  : Queue :=
  run nanoid makeFingerprint
    [OpAdd (TestJob (Some "a") "task1" "input1"); OpNext;
     OpComplete "a" output_S1 None]
    (new_queue "local").

(** The same with the number 0 as the output. *)
Definition queue_zero (nanoid : nat -> string) (makeFingerprint : JsValue -> string)
  : Queue :=
  run nanoid makeFingerprint
    [OpAdd (TestJob (Some "a") "task1" "input1"); OpNext;
     OpComplete "a" (JsNum 0) None]
    (new_queue "local").

(** A test job that is passed to [add] with the status COMPLETED. *)
Definition job_passed_COMPLETED : Job :=
  set_status COMPLETED (TestJob (Some "a") "task1" "input1").

(** A store whose one job is COMPLETED. *)
Definition queue_done : Queue :=
  with_jobs [(KStr "a", set_output (JsStr "done") (set_status COMPLETED job_a))]
    sample_queue.



(** The queue after [add] of a test job that was passed as PROCESSING, and
    that job as the store then holds it. *)
Definition queue_processing : Queue :=
  snd (add sample_nanoid sample_fingerprint
         (set_status PROCESSING (TestJob (Some "a") "task1" "input1"))
         sample_queue).

Definition job_processing : Job := set_status PROCESSING job_a.

(** ** The test job

    [TestJob.execute] of the generic queue tests returns
    [{ result: this.input.data.replace("input", "output") }]. *)

(** The rest of [s] after [pat], when [s] starts with [pat]. *)
Fixpoint starts_with (pat s : string) : option string :=
  match pat with
  | EmptyString => Some s
  | String p pat' =>
      match s with
      | EmptyString => None
      | String c s' => if Ascii.eqb p c then starts_with pat' s' else None
      end
  end.

(** [s.replace(pat, rep)] for a string pattern and a replacement without
    "$": the first occurrence of [pat], from the left, is replaced. *)
Fixpoint replace_first (pat rep s : string) : string :=
  match starts_with pat s with
  | Some rest => rep ++ rest
  | None =>
      match s with
      | EmptyString => EmptyString
      | String c s' => String c (replace_first pat rep s')
      end
  end.

(** [v.name] on an object. *)
Definition js_field (name : string) (v : JsValue) : option JsValue :=
  match v with
  | JsObj fields =>
      option_map snd (find (fun f => String.eqb (fst f) name) fields)
  | _ => None
  end.

(** [execute()]; [None] when [input.data] is not a string (the call of
    [replace] throws). *)
Definition TestJob_execute (job : Job) : option JsValue :=
  match js_field "data" (input job) with
  | Some (JsStr data) =>
      Some (JsObj [("result", JsStr (replace_first "input" "output" data))])
  | _ => None
  end.

(** ** A store in good order

    The keys of the records differ, and each record's key is the id of its
    job, as holds for a store with in-line keys. *)
Definition well_kept (q : Queue) : Prop :=
  NoDup (map fst (jobs q)) /\
  forall k j, os_get k (jobs q) = Some j -> keyPath_id j = Some k.

(** What [add] leaves on every job it stores: the queue's name, a run id and
    the fingerprint of the input. *)
Definition labelled (name : string) (makeFingerprint : JsValue -> string)
    (j : Job) : Prop :=
  queueName j = Some name /\
  jobRunId j <> None /\
  fingerprint j = Some (makeFingerprint (input j)).

(** * Facts on the object store *)

Module IDBFacts.

Lemma string_compare_refl (s : string) : String.compare s s = Eq.
Proof.
  pose proof (String.compare_antisym s s) as H.
  destruct (String.compare s s); simpl in H; congruence.
Qed.

Lemma key_compare_refl : forall k, key_compare k k = Eq.
Proof.
  induction k as [n | t | s | ks IH] using key_nested_ind; simpl.
  - apply Z.compare_refl.
  - apply Z.compare_refl.
  - apply string_compare_refl.
  - induction IH as [| x l Hx _ IHl]; [reflexivity |].
    rewrite Hx. exact IHl.
Qed.

Lemma key_compare_eq : forall a b, key_compare a b = Eq -> a = b.
Proof.
  induction a as [n | t | s | ks IH] using key_nested_ind;
    intros [m | u | r | ls]; simpl; intro H; try discriminate.
  - apply Z.compare_eq in H. now subst.
  - apply Z.compare_eq in H. now subst.
  - apply String.compare_eq_iff in H. now subst.
  - f_equal. revert ls H.
    induction IH as [| x l Hx _ IHl]; intros [| y ls] H; try discriminate.
    + reflexivity.
    + destruct (key_compare x y) eqn:E; try discriminate.
      apply Hx in E. subst y. f_equal. apply IHl. exact H.
Qed.

Lemma key_eqb_eq (a b : key) : key_eqb a b = true <-> a = b.
Proof.
  unfold key_eqb. split.
  - destruct (key_compare a b) eqn:E; try discriminate.
    intros _. now apply key_compare_eq.
  - intros ->. now rewrite key_compare_refl.
Qed.

Lemma key_eqb_refl (k : key) : key_eqb k k = true.
Proof. now apply key_eqb_eq. Qed.

Lemma key_eqb_neq (a b : key) : key_eqb a b = false <-> a <> b.
Proof.
  split.
  - intros H E. apply key_eqb_eq in E. congruence.
  - intros H. destruct (key_eqb a b) eqn:E; [| reflexivity].
    apply key_eqb_eq in E. contradiction.
Qed.

Lemma key_ltb_not_eqb (a b : key) : key_ltb a b = true -> key_eqb a b = false.
Proof. unfold key_ltb, key_eqb. now destruct (key_compare a b). Qed.

Lemma key_compare_antisym : forall a b,
  key_compare a b = CompOpp (key_compare b a).
Proof.
  induction a as [n | t | s | ks IH] using key_nested_ind;
    intros [m | u | r | ls]; simpl; try reflexivity.
  - apply Z.compare_antisym.
  - apply Z.compare_antisym.
  - apply String.compare_antisym.
  - revert ls. induction IH as [| x l Hx _ IHl]; intros [| y ls];
      try reflexivity.
    rewrite (Hx y). destruct (key_compare y x); simpl; auto.
Qed.

Lemma key_leb_total (a b : key) : key_leb a b = false -> key_leb b a = true.
Proof.
  unfold key_leb. rewrite (key_compare_antisym b a).
  now destruct (key_compare a b).
Qed.

(** The range [only k] holds [k] and nothing else. *)
Lemma in_range_only (k x : key) : in_range (only k) x = true <-> x = k.
Proof.
  unfold in_range, only, key_leb; simpl. split.
  - intros H. apply andb_true_iff in H as [H1 H2].
    rewrite (key_compare_antisym k x) in H1.
    destruct (key_compare x k) eqn:E; try discriminate.
    now apply key_compare_eq.
  - intros ->. now rewrite key_compare_refl.
Qed.

Section StoreFacts.
Context {V : Type}.
Implicit Types (s : store V) (k : key) (v : V).

Lemma os_get_In k v s : os_get k s = Some v -> In (k, v) s.
Proof.
  induction s as [| [k' v'] s IH]; simpl; [discriminate |].
  destruct (key_eqb k k') eqn:E.
  - intros [= ->]. apply key_eqb_eq in E. subst. now left.
  - intros H. right. now apply IH.
Qed.

Lemma os_get_insert_same k v s :
  os_get k s = None -> os_get k (os_insert k v s) = Some v.
Proof.
  induction s as [| [k' v'] s IH]; simpl.
  - now rewrite key_eqb_refl.
  - destruct (key_eqb k k') eqn:E; [discriminate |]. intros H.
    destruct (key_ltb k k'); simpl.
    + now rewrite key_eqb_refl.
    + rewrite E. now apply IH.
Qed.

Lemma os_get_insert_other k k' v s :
  k' <> k -> os_get k' (os_insert k v s) = os_get k' s.
Proof.
  intros N. apply key_eqb_neq in N.
  induction s as [| [k1 v1] s IH]; simpl.
  - now rewrite N.
  - destruct (key_ltb k k1); simpl.
    + now rewrite N.
    + now rewrite IH.
Qed.

Lemma os_get_replace_same k v v0 s :
  os_get k s = Some v0 -> os_get k (os_replace k v s) = Some v.
Proof.
  induction s as [| [k1 v1] s IH]; simpl; [discriminate |].
  destruct (key_eqb k k1) eqn:E; simpl; rewrite E; auto.
Qed.

Lemma os_get_replace_other k k' v s :
  k' <> k -> os_get k' (os_replace k v s) = os_get k' s.
Proof.
  intros N.
  induction s as [| [k1 v1] s IH]; simpl; [reflexivity |].
  destruct (key_eqb k k1) eqn:E; simpl.
  - apply key_eqb_eq in E. subst k1.
    apply key_eqb_neq in N. now rewrite N.
  - now rewrite IH.
Qed.

Lemma os_get_put_same k v s : os_get k (os_put k v s) = Some v.
Proof.
  unfold os_put. destruct (os_get k s) eqn:E.
  - eapply os_get_replace_same; eauto.
  - now apply os_get_insert_same.
Qed.

Lemma os_get_put_other k k' v s :
  k' <> k -> os_get k' (os_put k v s) = os_get k' s.
Proof.
  intros N. unfold os_put. destruct (os_get k s).
  - now apply os_get_replace_other.
  - now apply os_get_insert_other.
Qed.

Lemma os_get_Some_of_In k v s : In (k, v) s -> exists v', os_get k s = Some v'.
Proof.
  induction s as [| [k1 v1] s IH]; simpl; [contradiction |].
  intros [E | H].
  - injection E as -> ->. rewrite key_eqb_refl. eauto.
  - destruct (key_eqb k k1); eauto.
Qed.

(** *** Indexes *)

Lemma entry_insert_In (e x : entry V) (l : list (entry V)) :
  In x (entry_insert e l) <-> x = e \/ In x l.
Proof.
  induction l as [| e' l IH]; simpl.
  - intuition.
  - destruct (entry_leb V e e'); simpl; rewrite ?IH; intuition.
Qed.

Lemma index_entries_In (keyPath : V -> option key) s (e : entry V) :
  In e (index_entries keyPath s) <->
  In (entry_primaryKey e, entry_value e) s /\
  keyPath (entry_value e) = Some (entry_key e).
Proof.
  destruct e as [[ik' pk'] v'].
  unfold entry_primaryKey, entry_value, entry_key; simpl.
  induction s as [| [pk v] s IH]; simpl.
  - tauto.
  - destruct (keyPath v) as [ik |] eqn:K.
    + rewrite entry_insert_In, IH. split.
      * intros [[= -> -> ->] | [H1 H2]]; auto.
      * intros [[[= -> ->] | H1] H2]; auto.
        left. congruence.
    + rewrite IH. split.
      * intros [H1 H2]; auto.
      * intros [[[= -> ->] | H1] H2]; auto. congruence.
Qed.

Lemma entry_leb_total (e1 e2 : entry V) :
  entry_leb V e1 e2 = false -> entry_leb V e2 e1 = true.
Proof.
  unfold entry_leb. rewrite (key_compare_antisym (entry_key e2) (entry_key e1)).
  destruct (key_compare (entry_key e1) (entry_key e2)); simpl;
    try discriminate; auto.
  apply key_leb_total.
Qed.

(** The entries of an index ascend: each is at most the one after it, by
    index key and then by primary key. *)
Lemma entry_insert_Sorted (e : entry V) (l : list (entry V)) :
  Sorted (fun x y => entry_leb V x y = true) l ->
  Sorted (fun x y => entry_leb V x y = true) (entry_insert e l).
Proof.
  induction 1 as [| e' l S IH H]; simpl.
  - repeat constructor.
  - destruct (entry_leb V e e') eqn:E.
    + repeat constructor; assumption.
    + constructor; [exact IH |].
      apply entry_leb_total in E.
      destruct l as [| e'' l]; simpl.
      * now constructor.
      * destruct (entry_leb V e e''); constructor; auto.
        now inversion H.
Qed.

Lemma index_entries_Sorted (keyPath : V -> option key) s :
  Sorted (fun x y => entry_leb V x y = true) (index_entries keyPath s).
Proof.
  induction s as [| [pk v] s IH]; simpl.
  - constructor.
  - destruct (keyPath v); [now apply entry_insert_Sorted | exact IH].
Qed.

(** A cursor opens on an entry of the index whose key is in the range. *)
Lemma idx_openCursor_Some (keyPath : V -> option key) r s (e : entry V) :
  idx_openCursor keyPath r s = Some e ->
  In (entry_primaryKey e, entry_value e) s /\
  keyPath (entry_value e) = Some (entry_key e) /\
  in_range r (entry_key e) = true.
Proof.
  unfold idx_openCursor. intros H. apply find_some in H as [H1 H2].
  apply index_entries_In in H1. tauto.
Qed.

(** No cursor opens exactly when no record yields a key in the range. *)
Lemma idx_openCursor_None (keyPath : V -> option key) r s :
  idx_openCursor keyPath r s = None <->
  (forall pk v ik, In (pk, v) s -> keyPath v = Some ik -> in_range r ik = false).
Proof.
  unfold idx_openCursor. split.
  - intros H pk v ik Hin K.
    apply (find_none _ _ H (ik, pk, v)).
    apply index_entries_In. simpl. auto.
  - intros H. destruct (find _ _) as [e |] eqn:F; [| reflexivity].
    apply find_some in F as [F1 F2]. apply index_entries_In in F1 as [F1 F3].
    rewrite (H _ _ _ F1 F3) in F2. discriminate.
Qed.

(** Without a count, [getAll] lists the values of exactly the records that
    yield a key in the range. *)
Lemma idx_getAll_In (keyPath : V -> option key) r s v :
  In v (idx_getAll keyPath r None s) <->
  exists pk ik, In (pk, v) s /\ keyPath v = Some ik /\ in_range r ik = true.
Proof.
  unfold idx_getAll. rewrite in_map_iff. split.
  - intros [e [<- H]]. apply filter_In in H as [H1 H2].
    apply index_entries_In in H1 as [H1 H3].
    exists (entry_primaryKey e), (entry_key e). auto.
  - intros [pk [ik [H1 [H2 H3]]]]. exists (ik, pk, v). split; [reflexivity |].
    apply filter_In. split; [| exact H3].
    apply index_entries_In. auto.
Qed.

End StoreFacts.

End IDBFacts.

(** * Facts on the queue's methods *)

Import IDBFacts.

Lemma jobs_with_call c q : jobs (with_call c q) = jobs q.
Proof. reflexivity. Qed.

Lemma jobs_with_jobs s q : jobs (with_jobs s q) = s.
Proof. reflexivity. Qed.

Lemma or_zero_id (n : Z) : or_zero n = n.
Proof. unfold or_zero. destruct (n =? 0) eqn:E; [apply Z.eqb_eq in E |]; lia. Qed.

Lemma status_name_inj (a b : JobStatus) : status_name a = status_name b -> a = b.
Proof. destruct a, b; simpl; intros H; try reflexivity; discriminate H. Qed.

(** ** [next]: the cursor over [status_runAfter] *)

(** Every key of the index [status_runAfter] is an array, and the range
    [only(JobStatus.PENDING)] holds one string: no entry is in it. *)
Lemma status_runAfter_cursor_null (st : JobStatus) (s : store Job) :
  idx_openCursor keyPath_status_runAfter (only (KStr (status_name st))) s = None.
Proof.
  apply idx_openCursor_None. intros pk v ik _ K.
  unfold keyPath_status_runAfter in K. injection K as <-. reflexivity.
Qed.

Lemma next_unchanged (q : Queue) : next q = (Resolved None, q).
Proof. unfold next. now rewrite status_runAfter_cursor_null. Qed.

Lemma peek_empty (num : nat) (q : Queue) : peek num q = Resolved [].
Proof.
  unfold peek, idx_getAll.
  assert (E : filter
                (fun e => in_range (only (KStr (status_name PENDING))) (entry_key e))
                (index_entries keyPath_status_runAfter (jobs q)) = []).
  { pose proof (status_runAfter_cursor_null PENDING (jobs q)) as H.
    unfold idx_openCursor in H.
    induction (index_entries keyPath_status_runAfter (jobs q)) as [| e l IH];
      simpl in *; [reflexivity |].
    destruct (in_range _ (entry_key e)); [discriminate | auto]. }
  rewrite E. simpl. destruct num; [reflexivity | now rewrite firstn_nil].
Qed.

(** The index [status], whose keys are strings, does answer such a range:
    [processing()] lists exactly the stored jobs that are PROCESSING. *)
Lemma processing_lists_PROCESSING_jobs (q : Queue) (j : Job) :
  (exists l, processing q = Resolved l /\ In j l) <->
  (exists pk, In (pk, j) (jobs q) /\ status j = PROCESSING).
Proof.
  unfold processing. split.
  - intros [l [[= <-] H]]. apply idx_getAll_In in H as [pk [ik [H1 [H2 H3]]]].
    apply in_range_only in H3. subst ik. injection H2 as H2.
    apply (status_name_inj (status j) PROCESSING) in H2. eauto.
  - intros [pk [H1 H2]]. eexists. split; [reflexivity |].
    apply idx_getAll_In. exists pk, (KStr (status_name PROCESSING)).
    split; [exact H1 |]. split.
    + unfold keyPath_status. now rewrite H2.
    + now apply in_range_only.
Qed.

(** Scenario S2 on the code: after [add] of A then B, both PENDING with the
    same [runAfter], the store holds two jobs, [peek] lists none of them and
    [next()] resolves with no job, leaving A as it was. *)
Example S2_next_after_two_adds :
  size queue_two = Resolved 2%nat /\
  option_map status (stored queue_two "a") = Some PENDING /\
  option_map status (stored queue_two "b") = Some PENDING /\
  peek 100 queue_two = Resolved [] /\
  next queue_two = (Resolved None, queue_two).
Proof. repeat split. Qed.

(** Entries of [status_runAfter] with the same status and [runAfter] stand
    in the order of their ids, not in the order the jobs were added. *)
Example status_runAfter_orders_ties_by_id :
  map entry_primaryKey
    (index_entries keyPath_status_runAfter (jobs queue_b_then_a))
  = [KStr "a"; KStr "b"].
Proof. reflexivity. Qed.

(** C1. [next()] opens its cursor on the compound index [status_runAfter]
    with the one-string range [only(JobStatus.PENDING)]; no entry of that
    index is in the range, so whatever the store holds, and however many of
    its jobs are PENDING, [next()] resolves with no job and claims none:
    the earliest PENDING job is not returned and stays PENDING. *)
Theorem next_claims_no_job :
  forall q : Queue, next q = (Resolved None, q).
Proof. exact next_unchanged. Qed.

(** ** [complete] and [abort]: read, change, write back *)

Lemma completed_job_id j out err : id (completed_job j out err) = id j.
Proof.
  unfold completed_job. destruct err as [[[d | | |] msg] |]; simpl;
    try reflexivity.
  destruct (_ >=? _); reflexivity.
Qed.


Lemma completed_job_error_retries j out e :
  retries (completed_job j out (Some e)) = retries j + 1.
Proof.
  unfold completed_job. destruct e as [[d | | |] msg]; simpl;
    rewrite ?or_zero_id; try reflexivity.
  destruct (_ >=? _); reflexivity.
Qed.

Lemma completed_job_error_message j out e :
  error (completed_job j out (Some e)) = Some (message e).
Proof.
  unfold completed_job. destruct e as [[d | | |] msg]; simpl; try reflexivity.
  destruct (_ >=? _); reflexivity.
Qed.


(** The status after a retryable error, by the retry budget. *)
Lemma completed_job_retryable j out d msg :
  let j' := completed_job j out (Some (mkJobError (RetryableJobError d) msg)) in
  (retries j + 1 >= maxRetries j -> status j' = FAILED /\ runAfter j' = runAfter j) /\
  (retries j + 1 < maxRetries j -> status j' = PENDING /\ runAfter j' = d).
Proof.
  unfold completed_job; simpl. rewrite or_zero_id.
  destruct ((retries j + 1) >=? maxRetries j) eqn:E; simpl.
  - split; [easy |]. intros H. apply Z.geb_le in E. lia.
  - split; [| easy]. intros H.
    assert (((retries j + 1) >=? maxRetries j) = true) by (apply Z.geb_le; lia).
    congruence.
Qed.

(** The status after an error that is not retryable. *)
Lemma completed_job_not_retryable j out e :
  (forall d, class e <> RetryableJobError d) ->
  status (completed_job j out (Some e)) = FAILED /\
  runAfter (completed_job j out (Some e)) = runAfter j.
Proof.
  intros N. unfold completed_job. destruct e as [[d | | |] msg]; simpl; auto.
  exfalso. now apply (N d).
Qed.

(** [complete] on a job stored under its id settles, writes the changed job
    back under the same key and leaves every other record as it was. *)
Lemma complete_stored q k j out err :
  stored q k = Some j -> id j = Some k ->
  fst (complete k out err q) = Resolved tt /\
  jobs (snd (complete k out err q)) =
    os_put (KStr k) (completed_job j out err) (jobs q).
Proof.
  unfold stored, complete. intros G I. rewrite G.
  unfold store_put, keyPath_id. rewrite completed_job_id, I. simpl.
  split; [reflexivity |].
  destruct (_ || _); reflexivity.
Qed.

Lemma complete_absent q k out err :
  stored q k = None ->
  complete k out err q = (Rejected (Error ("Job " ++ k ++ " not found")), q).
Proof. unfold stored, complete. now intros ->. Qed.

Lemma abort_stored q k j :
  stored q k = Some j -> id j = Some k ->
  fst (abort k q) = Resolved tt /\
  jobs (snd (abort k q)) = os_put (KStr k) (set_status ABORTING j) (jobs q).
Proof.
  unfold stored, abort. intros G I. rewrite G.
  unfold store_put, keyPath_id. simpl. rewrite I. simpl. auto.
Qed.

Lemma abort_absent q k :
  stored q k = None ->
  abort k q = (Rejected (Error ("Job " ++ k ++ " not found")), q).
Proof. unfold stored, abort. now intros ->. Qed.

Lemma KStr_neq (a b : string) : a <> b -> KStr a <> KStr b.
Proof. congruence. Qed.

(** C3. For a stored job [j] and a retryable error carrying [retryDate],
    [complete(j.id, null, e)] adds one to [retries]; when the new count has
    reached [maxRetries] the job becomes FAILED, otherwise it becomes PENDING
    with [runAfter] set to [retryDate]. *)
Theorem complete_retryable_error :
  forall (q : Queue) (k : string) (j : Job) (retryDate : Z) (msg : string),
    stored q k = Some j -> id j = Some k ->
    exists q' j',
      complete k JsNull (Some (mkJobError (RetryableJobError retryDate) msg)) q
        = (Resolved tt, q') /\
      stored q' k = Some j' /\
      retries j' = retries j + 1 /\
      (retries j' >= maxRetries j -> status j' = FAILED) /\
      (retries j' < maxRetries j ->
         status j' = PENDING /\ runAfter j' = retryDate).
Proof.
  intros q k j d msg G I.
  set (e := mkJobError (RetryableJobError d) msg).
  destruct (complete_stored q k j JsNull (Some e) G I) as [R S].
  exists (snd (complete k JsNull (Some e) q)), (completed_job j JsNull (Some e)).
  split; [| split; [| split]].
  - rewrite <- R. now destruct (complete k JsNull (Some e) q).
  - unfold stored. rewrite S. apply os_get_put_same.
  - apply completed_job_error_retries.
  - rewrite completed_job_error_retries.
    destruct (completed_job_retryable j JsNull d msg) as [A B].
    split; intros H; [apply A | apply B]; exact H.
Qed.

(** C9. Whatever the class of the error (retryable, permanent, abort signal
    or any other), [complete(id, null, error)] on a stored job adds exactly
    one to [retries] and stores [error.message] in the job's [error]. *)
Theorem complete_error_counts_and_records :
  forall (q : Queue) (k : string) (j : Job) (e : JobError),
    stored q k = Some j -> id j = Some k ->
    exists q' j',
      complete k JsNull (Some e) q = (Resolved tt, q') /\
      stored q' k = Some j' /\
      retries j' = retries j + 1 /\
      error j' = Some (message e).
Proof.
  intros q k j e G I.
  destruct (complete_stored q k j JsNull (Some e) G I) as [R S].
  exists (snd (complete k JsNull (Some e) q)), (completed_job j JsNull (Some e)).
  split; [| split; [| split]].
  - rewrite <- R. now destruct (complete k JsNull (Some e) q).
  - unfold stored. rewrite S. apply os_get_put_same.
  - apply completed_job_error_retries.
  - apply completed_job_error_message.
Qed.

(** C10. For an id the store does not hold, [get(id)] resolves with
    undefined, while [complete(id, ...)] and [abort(id)] reject with the
    error "Job <id> not found" and leave the queue's state as it was. *)
Theorem absent_id_get_complete_abort :
  forall (q : Queue) (k : string),
    stored q k = None ->
    get k q = Resolved None /\
    (forall out err,
        complete k out err q = (Rejected (Error ("Job " ++ k ++ " not found")), q)) /\
    abort k q = (Rejected (Error ("Job " ++ k ++ " not found")), q).
Proof.
  intros q k A. split; [| split].
  - unfold get. unfold stored in A. now rewrite A.
  - intros out err. now apply complete_absent.
  - now apply abort_absent.
Qed.

Example queue_a_stores_job_a : stored queue_a "a" = Some job_a.
Proof. reflexivity. Qed.

Lemma complete_retryable_error_witness :
  exists q' j',
    complete "a" JsNull (Some (mkJobError (RetryableJobError 7) "busy")) queue_a
      = (Resolved tt, q') /\
    stored q' "a" = Some j' /\
    retries j' = retries job_a + 1 /\
    (retries j' >= maxRetries job_a -> status j' = FAILED) /\
    (retries j' < maxRetries job_a -> status j' = PENDING /\ runAfter j' = 7).
Proof.
  apply (complete_retryable_error queue_a "a" job_a 7 "busy"); reflexivity.
Defined.

Lemma complete_error_counts_and_records_witness :
  exists q' j',
    complete "a" JsNull (Some (mkJobError AbortSignalJobError "Aborted via signal"))
      queue_a = (Resolved tt, q') /\
    stored q' "a" = Some j' /\
    retries j' = retries job_a + 1 /\
    error j' = Some "Aborted via signal".
Proof.
  apply (complete_error_counts_and_records queue_a "a" job_a
           (mkJobError AbortSignalJobError "Aborted via signal")); reflexivity.
Defined.

Lemma absent_id_get_complete_abort_witness :
  get "b" queue_a = Resolved None /\
  (forall out err,
      complete "b" out err queue_a
        = (Rejected (Error ("Job " ++ "b" ++ " not found")), queue_a)) /\
  abort "b" queue_a = (Rejected (Error ("Job " ++ "b" ++ " not found")), queue_a).
Proof.
  apply (absent_id_get_complete_abort queue_a "b"). reflexivity.
Defined.

(** ** [add]: prepare the job, then [store.add] *)

Section AddFacts.
Variable nanoid : nat -> string.
Variable makeFingerprint : JsValue -> string.

Lemma assigned_id_given job q k : id job = Some k -> assigned_id nanoid job q = k.
Proof. unfold assigned_id. now intros ->. Qed.

Lemma add_taken job q old :
  stored q (assigned_id nanoid job q) = Some old ->
  fst (add nanoid makeFingerprint job q) = Rejected tx_error /\
  jobs (snd (add nanoid makeFingerprint job q)) = jobs q.
Proof.
  unfold stored, assigned_id, add, os_add. intros G. rewrite G. auto.
Qed.

Lemma add_fresh job q :
  stored q (assigned_id nanoid job q) = None ->
  fst (add nanoid makeFingerprint job q) = Resolved (assigned_id nanoid job q) /\
  jobs (snd (add nanoid makeFingerprint job q)) =
    os_insert (KStr (assigned_id nanoid job q))
      (prepared nanoid makeFingerprint job q) (jobs q).
Proof.
  unfold stored, assigned_id, add, os_add. intros G. rewrite G. auto.
Qed.

(** [add] resolves only with the assigned id, and only when it was free. *)
Lemma add_resolved job q k q' :
  add nanoid makeFingerprint job q = (Resolved k, q') ->
  k = assigned_id nanoid job q /\ stored q k = None /\
  stored q' k = Some (prepared nanoid makeFingerprint job q).
Proof.
  intros H. destruct (stored q (assigned_id nanoid job q)) as [old |] eqn:G.
  - destruct (add_taken job q old G) as [R _]. rewrite H in R. discriminate.
  - destruct (add_fresh job q G) as [R S]. rewrite H in R, S. simpl in R, S.
    injection R as ->. repeat split; auto.
    unfold stored. rewrite S. now apply os_get_insert_same.
Qed.

End AddFacts.

(** C8. When the job's id is already a key of the store, [add(job)]
    rejects and every record, the one under that id included, is as before;
    but the value it rejects with is [tx.error] as read inside [tx.onerror],
    which is null, not the store's duplicate-key error.  When the id the
    job is stored under (its own, or the generated one) is not yet a key,
    [add] resolves with that id and the job is stored under it. *)
Theorem add_duplicate_or_fresh :
  forall (nanoid : nat -> string) (makeFingerprint : JsValue -> string)
         (job : Job) (q : Queue),
    (forall k old,
        id job = Some k -> stored q k = Some old ->
        fst (add nanoid makeFingerprint job q) = Rejected Null /\
        jobs (snd (add nanoid makeFingerprint job q)) = jobs q /\
        stored (snd (add nanoid makeFingerprint job q)) k = Some old) /\
    (forall k,
        assigned_id nanoid job q = k -> stored q k = None ->
        fst (add nanoid makeFingerprint job q) = Resolved k /\
        exists j, stored (snd (add nanoid makeFingerprint job q)) k = Some j /\
                  id j = Some k /\ taskType j = taskType job /\
                  input j = input job).
Proof.
  intros nanoid fp job q. split.
  - intros k old I G.
    rewrite <- (assigned_id_given nanoid job q k I) in G.
    destruct (add_taken nanoid fp job q old G) as [R S].
    repeat split; auto.
    unfold stored. rewrite S.
    now rewrite (assigned_id_given nanoid job q k I) in G.
  - intros k <- G. destruct (add_fresh nanoid fp job q G) as [R S].
    split; [exact R |]. exists (prepared nanoid fp job q).
    repeat split. unfold stored. rewrite S. now apply os_get_insert_same.
Qed.

Lemma add_duplicate_or_fresh_witness :
  (fst (add sample_nanoid sample_fingerprint
          (TestJob (Some "a") "task2" "input2") queue_a) = Rejected Null /\
   jobs (snd (add sample_nanoid sample_fingerprint
                (TestJob (Some "a") "task2" "input2") queue_a)) = jobs queue_a /\
   stored (snd (add sample_nanoid sample_fingerprint
                  (TestJob (Some "a") "task2" "input2") queue_a)) "a"
     = Some job_a) /\
  (fst (add sample_nanoid sample_fingerprint
          (TestJob None "task2" "input2") queue_a) = Resolved "id-1" /\
   exists j,
     stored (snd (add sample_nanoid sample_fingerprint
                    (TestJob None "task2" "input2") queue_a)) "id-1" = Some j /\
     id j = Some "id-1" /\
     taskType j = taskType (TestJob None "task2" "input2") /\
     input j = input (TestJob None "task2" "input2")).
Proof.
  split.
  - apply (proj1 (add_duplicate_or_fresh sample_nanoid sample_fingerprint
                    (TestJob (Some "a") "task2" "input2") queue_a) "a" job_a);
      reflexivity.
  - apply (proj2 (add_duplicate_or_fresh sample_nanoid sample_fingerprint
                    (TestJob None "task2" "input2") queue_a) "id-1");
      reflexivity.
Defined.

(** What [add] stores for a job passed as COMPLETED: a COMPLETED job. *)
Lemma add_job_passed_COMPLETED nanoid fp :
  fst (add nanoid fp job_passed_COMPLETED sample_queue) = Resolved "a" /\
  option_map status
    (stored (snd (add nanoid fp job_passed_COMPLETED sample_queue)) "a")
    = Some COMPLETED.
Proof. split; reflexivity. Qed.

(** C4 as stated fails: [add] does not set the status.  The test job passed
    with status COMPLETED to [add] on a new queue is stored, and is stored as
    COMPLETED: whatever [nanoid] and [makeFingerprint] are, the stored job is
    not PENDING. *)
Lemma add_does_not_set_status :
  ~ (exists (nanoid : nat -> string) (makeFingerprint : JsValue -> string),
        option_map status
          (stored (snd (add nanoid makeFingerprint job_passed_COMPLETED
                          sample_queue)) "a")
        = Some PENDING).
Proof.
  intros [nanoid [fp H]].
  destruct (add_job_passed_COMPLETED nanoid fp) as [_ E].
  rewrite E in H. discriminate H.
Qed.

(** C4, amended. When [add] resolves with an id, the job stored under that
    id has the status the job was passed with ([add] leaves it alone, so
    PENDING for a job passed as PENDING), that id as its [id] (the job's
    own, or the generated one when it had none), and as its [fingerprint]
    the value of [makeFingerprint] on its input. *)
Theorem add_stores_job_as_passed :
  forall (nanoid : nat -> string) (makeFingerprint : JsValue -> string)
         (job : Job) (q : Queue) (k : string) (q' : Queue),
    add nanoid makeFingerprint job q = (Resolved k, q') ->
    exists j,
      stored q' k = Some j /\
      status j = status job /\
      id j = Some k /\
      k = match id job with Some i => i | None => nanoid (nanoids q) end /\
      fingerprint j = Some (makeFingerprint (input job)).
Proof.
  intros nanoid fp job q k q' H.
  destruct (add_resolved nanoid fp job q k q' H) as [E [_ S]].
  exists (prepared nanoid fp job q). repeat split; auto.
  - simpl. now rewrite E.
  - rewrite E. unfold assigned_id. now destruct (id job).
Qed.

Lemma add_stores_job_as_passed_witness :
  exists j,
    stored queue_a "a" = Some j /\
    status j = status (TestJob (Some "a") "task1" "input1") /\
    id j = Some "a" /\
    "a" = match id (TestJob (Some "a") "task1" "input1") with
          | Some i => i
          | None => sample_nanoid (nanoids sample_queue)
          end /\
    fingerprint j =
      Some (sample_fingerprint (input (TestJob (Some "a") "task1" "input1"))).
Proof.
  apply (add_stores_job_as_passed sample_nanoid sample_fingerprint
           (TestJob (Some "a") "task1" "input1") sample_queue "a" queue_a).
  reflexivity.
Defined.

(** ** Status changes *)

(** C6 as stated fails: [abort] does not look at the status it replaces.
    On a store whose job "a" is COMPLETED, [abort("a")] resolves and leaves
    the job ABORTING, which is no edge of the specification's graph. *)
Lemma abort_moves_COMPLETED_job :
  option_map status (stored queue_done "a") = Some COMPLETED /\
  fst (abort "a" queue_done) = Resolved tt /\
  option_map status (stored (snd (abort "a" queue_done)) "a") = Some ABORTING /\
  spec_edge COMPLETED ABORTING = false.
Proof. repeat split. Qed.

(** The status [complete] leaves after an error. *)
Lemma completed_job_error_status j out e :
  status (completed_job j out (Some e)) =
    match class e with
    | RetryableJobError _ =>
        if (retries j + 1) >=? maxRetries j then FAILED else PENDING
    | _ => FAILED
    end.
Proof.
  unfold completed_job. destruct e as [[d | | |] msg]; simpl; try reflexivity.
  rewrite or_zero_id. destruct (_ >=? _); reflexivity.
Qed.

(** C6, amended. For a job stored under its id, whatever its status:
    [complete(id, output)] sets COMPLETED; [complete(id, _, error)] sets
    PENDING when the error is retryable and the new retry count is below
    [maxRetries], and FAILED in every other case; [abort(id)] sets ABORTING;
    a job stored under another id keeps its record.  Every status they
    assign is one the specification's graph allows after PROCESSING, so on a
    PROCESSING job each of these changes follows an edge of the graph. *)
Theorem complete_abort_set_status :
  forall (q : Queue) (k : string) (j : Job),
    stored q k = Some j -> id j = Some k ->
    (forall out,
        option_map status (stored (snd (complete k out None q)) k)
          = Some COMPLETED) /\
    (forall out e,
        option_map status (stored (snd (complete k out (Some e) q)) k)
          = Some (match class e with
                  | RetryableJobError _ =>
                      if (retries j + 1) >=? maxRetries j
                      then FAILED else PENDING
                  | _ => FAILED
                  end)) /\
    option_map status (stored (snd (abort k q)) k) = Some ABORTING /\
    (forall k' out err,
        k' <> k ->
        stored (snd (complete k out err q)) k' = stored q k' /\
        stored (snd (abort k q)) k' = stored q k') /\
    (forall out err st,
       option_map status (stored (snd (complete k out err q)) k) = Some st \/
       option_map status (stored (snd (abort k q)) k) = Some st ->
       spec_edge PROCESSING st = true).
Proof.
  intros q k j G I.
  assert (C : forall out err,
             stored (snd (complete k out err q)) k = Some (completed_job j out err)).
  { intros out err. destruct (complete_stored q k j out err G I) as [_ S].
    unfold stored. rewrite S. apply os_get_put_same. }
  assert (A : stored (snd (abort k q)) k = Some (set_status ABORTING j)).
  { destruct (abort_stored q k j G I) as [_ S].
    unfold stored. rewrite S. apply os_get_put_same. }
  split; [| split; [| split; [| split]]].
  - intros out. now rewrite C.
  - intros out e. rewrite C.
    change (Some (status (completed_job j out (Some e))) = Some
              match class e with
              | RetryableJobError _ =>
                  if (retries j + 1) >=? maxRetries j then FAILED else PENDING
              | _ => FAILED
              end).
    now rewrite (completed_job_error_status j out e).
  - now rewrite A.
  - intros k' out err N. apply KStr_neq in N. split.
    + destruct (complete_stored q k j out err G I) as [_ S].
      unfold stored. rewrite S. now apply os_get_put_other.
    + destruct (abort_stored q k j G I) as [_ S].
      unfold stored. rewrite S. now apply os_get_put_other.
  - intros out err st [H | H].
    + rewrite C in H.
      assert (E : st = status (completed_job j out err))
        by (change (Some (status (completed_job j out err)) = Some st) in H;
            congruence).
      rewrite E. destruct err as [e |]; [| reflexivity].
      rewrite (completed_job_error_status j out e).
      destruct (class e); try reflexivity.
      destruct (_ >=? _); reflexivity.
    + rewrite A in H. simpl in H. injection H as <-. reflexivity.
Qed.

Lemma complete_abort_set_status_witness :
  (forall out,
      option_map status
        (stored (snd (complete "a" out None queue_processing)) "a")
        = Some COMPLETED) /\
  (forall out e,
      option_map status
        (stored (snd (complete "a" out (Some e) queue_processing)) "a")
        = Some (match class e with
                | RetryableJobError _ =>
                    if (retries job_processing + 1) >=? maxRetries job_processing
                    then FAILED else PENDING
                | _ => FAILED
                end)) /\
  option_map status (stored (snd (abort "a" queue_processing)) "a")
    = Some ABORTING /\
  (forall k' out err,
      k' <> "a" ->
      stored (snd (complete "a" out err queue_processing)) k'
        = stored queue_processing k' /\
      stored (snd (abort "a" queue_processing)) k' = stored queue_processing k') /\
  (forall out err st,
     option_map status
       (stored (snd (complete "a" out err queue_processing)) "a") = Some st \/
     option_map status (stored (snd (abort "a" queue_processing)) "a") = Some st ->
     spec_edge PROCESSING st = true).
Proof.
  apply (complete_abort_set_status queue_processing "a" job_processing);
    reflexivity.
Defined.

(** On the PROCESSING job of that store, a retryable error with retries
    left re-queues the job, an exhausted one fails it, and each change is an
    edge of the specification's graph. *)
Example status_changes_from_PROCESSING :
  status job_processing = PROCESSING /\
  option_map status
    (stored (snd (complete "a" JsNull
                    (Some (mkJobError (RetryableJobError 7) "busy"))
                    queue_processing)) "a") = Some PENDING /\
  option_map status
    (stored (snd (complete "a" JsNull
                    (Some (mkJobError (RetryableJobError 7) "busy"))
                    (with_jobs [(KStr "a", set_retries 9 job_processing)]
                       sample_queue))) "a") = Some FAILED /\
  spec_edge (status job_processing) PENDING = true /\
  spec_edge (status job_processing) FAILED = true /\
  spec_edge (status job_processing) COMPLETED = true /\
  spec_edge (status job_processing) ABORTING = true.
Proof. repeat split. Qed.

(** ** The retry count *)



(** A property of the records that every write keeps, is kept by every
    operation: [add] inserts the prepared job, [complete] and [abort] put
    the changed job under its own id, [next] writes nothing. *)
Lemma exec_preserves_records (P : key -> Job -> Prop)
    (nanoid : nat -> string) (fp : JsValue -> string) (o : Op) (q : Queue) :
  (forall k j, os_get k (jobs q) = Some j -> P k j) ->
  (forall job, o = OpAdd job ->
     P (KStr (assigned_id nanoid job q)) (prepared nanoid fp job q)) ->
  (forall k out err j pk,
      o = OpComplete k out err -> stored q k = Some j ->
      keyPath_id (completed_job j out err) = Some pk ->
      P pk (completed_job j out err)) ->
  (forall k j pk,
      o = OpAbort k -> stored q k = Some j ->
      keyPath_id (set_status ABORTING j) = Some pk ->
      P pk (set_status ABORTING j)) ->
  forall k j, os_get k (jobs (exec nanoid fp o q)) = Some j -> P k j.
Proof.
  intros Inv HA HC HB k j.
  destruct o as [job | | id0 out err | id0]; simpl.
  - (* add *)
    destruct (stored q (assigned_id nanoid job q)) as [old |] eqn:G.
    + destruct (add_taken nanoid fp job q old G) as [_ S]. rewrite S. apply Inv.
    + destruct (add_fresh nanoid fp job q G) as [_ S]. rewrite S.
      destruct (key_eqb k (KStr (assigned_id nanoid job q))) eqn:E.
      * apply key_eqb_eq in E. subst k.
        rewrite os_get_insert_same by exact G.
        intros [= <-]. now apply HA.
      * apply key_eqb_neq in E. rewrite os_get_insert_other by exact E.
        apply Inv.
  - (* next *)
    rewrite next_unchanged. apply Inv.
  - (* complete *)
    unfold complete.
    destruct (os_get (KStr id0) (jobs q)) as [j0 |] eqn:G; [| apply Inv].
    unfold store_put.
    destruct (keyPath_id (completed_job j0 out err)) as [pk |] eqn:K;
      [| apply Inv].
    assert (S : jobs (snd
                 (Resolved tt,
                  if JobStatus_eqb (status (completed_job j0 out err)) COMPLETED
                     || JobStatus_eqb (status (completed_job j0 out err)) FAILED
                  then with_call
                         (onCompleted (Job_id (completed_job j0 out err))
                            (status (completed_job j0 out err)) out err)
                         (with_jobs (os_put pk (completed_job j0 out err) (jobs q)) q)
                  else with_jobs (os_put pk (completed_job j0 out err) (jobs q)) q))
               = os_put pk (completed_job j0 out err) (jobs q)).
    { simpl. destruct (_ || _); reflexivity. }
    rewrite S. clear S.
    destruct (key_eqb k pk) eqn:E.
    + apply key_eqb_eq in E. subst k. rewrite os_get_put_same.
      intros [= <-]. now apply (HC id0 out err j0).
    + apply key_eqb_neq in E. rewrite os_get_put_other by exact E. apply Inv.
  - (* abort *)
    unfold abort.
    destruct (os_get (KStr id0) (jobs q)) as [j0 |] eqn:G; [| apply Inv].
    unfold store_put.
    destruct (keyPath_id (set_status ABORTING j0)) as [pk |] eqn:K;
      [| apply Inv].
    simpl.
    destruct (key_eqb k pk) eqn:E.
    + apply key_eqb_eq in E. subst k. rewrite os_get_put_same.
      intros [= <-]. now apply (HB id0 j0).
    + apply key_eqb_neq in E. rewrite os_get_put_other by exact E. apply Inv.
Qed.

(** In every state a run reaches from a new queue, a record's key is the id
    of its job: the store keeps its jobs in line. *)
Lemma run_keys_are_ids nanoid fp ops name :
  forall k j,
    os_get k (jobs (run nanoid fp ops (new_queue name))) = Some j ->
    keyPath_id j = Some k.
Proof.
  unfold run. rewrite <- fold_left_rev_right.
  induction (rev ops) as [| o l IH]; simpl.
  - discriminate.
  - apply (exec_preserves_records (fun k j => keyPath_id j = Some k)); auto.
Qed.




(** ** [outputForInput]: the index [taskType_fingerprint_status] *)

(** A job is under the query key exactly when it is COMPLETED with that task
    type and fingerprint. *)
Lemma taskType_fingerprint_status_key (j : Job) (tt f : string) (st : JobStatus) :
  keyPath_taskType_fingerprint_status j
    = Some (KArr [KStr tt; KStr f; KStr (status_name st)]) <->
  taskType j = tt /\ fingerprint j = Some f /\ status j = st.
Proof.
  unfold keyPath_taskType_fingerprint_status. split.
  - destruct (fingerprint j) as [g |]; [| discriminate].
    intros [= -> -> H]. apply status_name_inj in H. auto.
  - intros [-> [-> ->]]. reflexivity.
Qed.

Section OutputForInput.
Variable makeFingerprint : JsValue -> string.
Variable JSON_parse : string -> option JsValue.
Variable Number_toString : Z -> string.
Variable settles_later : bool.

(** When the fingerprint settles in a later task, the method rejects
    whatever the store holds. *)
Lemma outputForInput_later (tt : string) (inp : JsValue) (q : Queue) :
  settles_later = true ->
  outputForInput makeFingerprint JSON_parse Number_toString settles_later
    tt inp q
  = Rejected (DOMException "InvalidStateError").
Proof. unfold outputForInput. now intros ->. Qed.

(** With no COMPLETED job of that task type and fingerprint in the store,
    and the transaction still open, the result is null. *)
Lemma outputForInput_no_match (tt : string) (inp : JsValue) (q : Queue) :
  (forall pk j, In (pk, j) (jobs q) ->
     ~ (taskType j = tt /\ fingerprint j = Some (makeFingerprint inp) /\
        status j = COMPLETED)) ->
  outputForInput makeFingerprint JSON_parse Number_toString settles_later
    tt inp q
  = if settles_later
    then Rejected (DOMException "InvalidStateError")
    else Resolved JsNull.
Proof.
  intros N. unfold outputForInput, idx_get.
  destruct settles_later; [reflexivity |].
  replace (idx_openCursor _ _ _) with (@None (entry Job)); [reflexivity |].
  symmetry. apply idx_openCursor_None. intros pk j ik Hin K.
  destruct (in_range _ ik) eqn:R; [| reflexivity].
  apply in_range_only in R. subst ik.
  apply taskType_fingerprint_status_key in K. now apply N in Hin.
Qed.

(** Otherwise the result is computed from the output of one such job. *)
Lemma outputForInput_match (tt : string) (inp : JsValue) (q : Queue) :
  (exists pk j, In (pk, j) (jobs q) /\ taskType j = tt /\
     fingerprint j = Some (makeFingerprint inp) /\ status j = COMPLETED) ->
  exists pk j, In (pk, j) (jobs q) /\ taskType j = tt /\
     fingerprint j = Some (makeFingerprint inp) /\ status j = COMPLETED /\
     outputForInput makeFingerprint JSON_parse Number_toString settles_later
       tt inp q
     = if settles_later
       then Rejected (DOMException "InvalidStateError")
       else reparsed JSON_parse Number_toString (output j).
Proof.
  intros [pk0 [j0 [Hin [T [F S]]]]]. unfold outputForInput, idx_get.
  destruct settles_later; [exists pk0, j0; auto 6 |].
  destruct (idx_openCursor _ _ _) as [e |] eqn:C.
  - apply idx_openCursor_Some in C as [C1 [C2 C3]].
    apply in_range_only in C3. rewrite C3 in C2.
    apply taskType_fingerprint_status_key in C2 as [T' [F' S']].
    exists (entry_primaryKey e), (entry_value e). simpl. auto 6.
  - exfalso.
    pose proof (proj1 (idx_openCursor_None _ _ _) C pk0 j0) as H.
    specialize (H (KArr [KStr tt; KStr (makeFingerprint inp);
                          KStr (status_name COMPLETED)])).
    rewrite (proj2 (in_range_only _ _) eq_refl) in H.
    assert (true = false); [| discriminate].
    apply H; [exact Hin |].
    apply taskType_fingerprint_status_key. auto.
Qed.

End OutputForInput.

Lemma idx_get_one_record {V : Type} (keyPath : V -> option key) (r : KeyRange)
    (pk ik : key) (v : V) :
  keyPath v = Some ik -> in_range r ik = true ->
  idx_get keyPath r [(pk, v)] = Some v.
Proof.
  intros K R. unfold idx_get, idx_openCursor. simpl. rewrite K. simpl.
  unfold entry_key. simpl. now rewrite R.
Qed.

(** C5.  Scenario S1 on the code: a job of task type "task1" and input
    [{data: "input1"}] is added and completed with the object
    [{result: "success"}], which [complete] stores as it is.
    [outputForInput("task1", {data: "input1"})], when its transaction is
    still open after the fingerprint has settled, finds the job and hands its
    output to [JSON.parse], which reads the object as the text
    "[object Object]": the result is whatever [JSON.parse] makes of that
    text, not the stored output; when the stored output is the number 0 the
    result is null.  When the fingerprint settles in a later task the method
    rejects with an InvalidStateError.  In no case is the stored output
    returned. *)
Theorem outputForInput_reparses_stored_output :
  forall (nanoid : nat -> string) (makeFingerprint : JsValue -> string)
         (JSON_parse : string -> option JsValue)
         (Number_toString : Z -> string) (settles_later : bool),
    option_map (fun j => (status j, output j))
      (stored (queue_S1 nanoid makeFingerprint) "a")
      = Some (COMPLETED, output_S1) /\
    outputForInput makeFingerprint JSON_parse Number_toString settles_later
      "task1" (JsObj [("data", JsStr "input1")]) (queue_S1 nanoid makeFingerprint)
      = (if settles_later
         then Rejected (DOMException "InvalidStateError")
         else match JSON_parse "[object Object]" with
              | Some v => Resolved v
              | None => Unsettled
              end) /\
    option_map (fun j => (status j, output j))
      (stored (queue_zero nanoid makeFingerprint) "a")
      = Some (COMPLETED, JsNum 0) /\
    outputForInput makeFingerprint JSON_parse Number_toString settles_later
      "task1" (JsObj [("data", JsStr "input1")]) (queue_zero nanoid makeFingerprint)
      = (if settles_later
         then Rejected (DOMException "InvalidStateError")
         else Resolved JsNull).
Proof.
  intros nanoid fp parse num later.
  split; [reflexivity |]. split; [| split; [reflexivity |]].
  - unfold outputForInput. destruct later; [reflexivity |].
    let s := eval cbv in (jobs (queue_S1 nanoid fp)) in
    change (jobs (queue_S1 nanoid fp)) with s.
    erewrite (idx_get_one_record keyPath_taskType_fingerprint_status _ (KStr "a")).
    + reflexivity.
    + reflexivity.
    + now apply in_range_only.
  - unfold outputForInput. destruct later; [reflexivity |].
    let s := eval cbv in (jobs (queue_zero nanoid fp)) in
    change (jobs (queue_zero nanoid fp)) with s.
    erewrite (idx_get_one_record keyPath_taskType_fingerprint_status _ (KStr "a")).
    + reflexivity.
    + reflexivity.
    + now apply in_range_only.
Qed.

(** * Further facts: the shape of the store *)

Section StoreShape.
Context {V : Type}.
Implicit Types (s : store V) (k : key) (v : V).

Lemma os_insert_length k v s : List.length (os_insert k v s) = S (List.length s).
Proof.
  induction s as [| [k' v'] s IH]; simpl; [reflexivity |].
  destruct (key_ltb k k'); simpl; [reflexivity | now rewrite IH].
Qed.

Lemma os_replace_keys k v s : map fst (os_replace k v s) = map fst s.
Proof.
  induction s as [| [k' v'] s IH]; simpl; [reflexivity |].
  destruct (key_eqb k k'); simpl; [reflexivity | now rewrite IH].
Qed.

Lemma os_replace_length k v s : List.length (os_replace k v s) = List.length s.
Proof.
  rewrite <- (length_map fst (os_replace k v s)), os_replace_keys.
  apply length_map.
Qed.

Lemma os_insert_keys k v s x :
  In x (map fst (os_insert k v s)) <-> x = k \/ In x (map fst s).
Proof.
  induction s as [| [k' v'] s IH]; simpl.
  - intuition.
  - destruct (key_ltb k k'); simpl; rewrite ?IH; intuition.
Qed.

Lemma os_get_None_keys k s : os_get k s = None <-> ~ In k (map fst s).
Proof.
  induction s as [| [k' v'] s IH]; simpl.
  - intuition.
  - destruct (key_eqb k k') eqn:E.
    + apply key_eqb_eq in E. subst. split; [discriminate | intuition].
    + apply key_eqb_neq in E. rewrite IH. intuition.
Qed.

Lemma os_insert_NoDup k v s :
  NoDup (map fst s) -> ~ In k (map fst s) -> NoDup (map fst (os_insert k v s)).
Proof.
  induction s as [| [k' v'] s IH]; simpl; intros N A.
  - repeat constructor. auto.
  - destruct (key_ltb k k'); simpl.
    + constructor; assumption.
    + inversion N as [| ? ? N1 N2]; subst. constructor.
      * rewrite os_insert_keys. intuition.
      * apply IH; intuition.
Qed.

(** [put] keeps the keys apart, and changes the number of records only when
    the key is new. *)
Lemma os_put_NoDup k v s : NoDup (map fst s) -> NoDup (map fst (os_put k v s)).
Proof.
  intros N. unfold os_put. destruct (os_get k s) eqn:G.
  - now rewrite os_replace_keys.
  - apply os_insert_NoDup; [exact N | now apply os_get_None_keys].
Qed.

Lemma os_put_length k v s :
  List.length (os_put k v s) =
    match os_get k s with Some _ => List.length s | None => S (List.length s) end.
Proof.
  unfold os_put. destruct (os_get k s).
  - apply os_replace_length.
  - apply os_insert_length.
Qed.

(** With the keys apart, a record is in the store exactly when [get] finds
    its value under its key. *)
Lemma os_get_iff_In k v s :
  NoDup (map fst s) -> (os_get k s = Some v <-> In (k, v) s).
Proof.
  intros N. split; [apply os_get_In |].
  induction s as [| [k' v'] s IH]; simpl; [contradiction |].
  inversion N as [| ? ? N1 N2]; subst.
  intros [E | H].
  - injection E as -> ->. now rewrite key_eqb_refl.
  - destruct (key_eqb k k') eqn:E.
    + apply key_eqb_eq in E. subst k'. exfalso. apply N1.
      apply (in_map fst) in H. exact H.
    + now apply IH.
Qed.

End StoreShape.

(** * Further facts: what every operation keeps *)

Lemma queue_exec nanoid fp o q : queue (exec nanoid fp o q) = queue q.
Proof.
  destruct o as [job | | k out err | k]; simpl.
  - unfold add. destruct (os_add _ _ _); reflexivity.
  - now rewrite next_unchanged.
  - unfold complete. destruct (os_get _ _); [| reflexivity].
    destruct (store_put _ _); [| reflexivity]. simpl.
    destruct (_ || _); reflexivity.
  - unfold abort. destruct (os_get _ _); [| reflexivity].
    destruct (store_put _ _); reflexivity.
Qed.

Lemma queue_run nanoid fp ops q : queue (run nanoid fp ops q) = queue q.
Proof.
  revert q. induction ops as [| o ops IH]; intros q; [reflexivity |].
  change (run nanoid fp (o :: ops) q)
    with (run nanoid fp ops (exec nanoid fp o q)).
  now rewrite IH, queue_exec.
Qed.

(** An operation leaves the records as they were, or puts one record. *)
Lemma exec_jobs_shape nanoid fp o q :
  jobs (exec nanoid fp o q) = jobs q \/
  exists k v, jobs (exec nanoid fp o q) = os_put k v (jobs q).
Proof.
  destruct o as [job | | k out err | k]; simpl.
  - destruct (stored q (assigned_id nanoid job q)) as [old |] eqn:G.
    + left. now destruct (add_taken nanoid fp job q old G).
    + right. destruct (add_fresh nanoid fp job q G) as [_ S].
      exists (KStr (assigned_id nanoid job q)), (prepared nanoid fp job q).
      rewrite S. unfold os_put. unfold stored in G. now rewrite G.
  - left. now rewrite next_unchanged.
  - unfold complete. destruct (os_get _ _) as [j0 |]; [| now left].
    unfold store_put. destruct (keyPath_id _) as [pk |]; [| now left].
    right. exists pk, (completed_job j0 out err). simpl.
    destruct (_ || _); reflexivity.
  - unfold abort. destruct (os_get _ _) as [j0 |]; [| now left].
    unfold store_put. destruct (keyPath_id _) as [pk |]; [| now left].
    right. exists pk, (set_status ABORTING j0). reflexivity.
Qed.

Lemma exec_well_kept nanoid fp o q :
  well_kept q -> well_kept (exec nanoid fp o q).
Proof.
  intros [N K]. split.
  - destruct (exec_jobs_shape nanoid fp o q) as [-> | [k [v ->]]];
      [exact N | now apply os_put_NoDup].
  - apply (exec_preserves_records (fun k j => keyPath_id j = Some k)); auto.
Qed.

Lemma run_well_kept nanoid fp ops q :
  well_kept q -> well_kept (run nanoid fp ops q).
Proof.
  revert q. induction ops as [| o ops IH]; intros q W; [exact W |].
  change (run nanoid fp (o :: ops) q)
    with (run nanoid fp ops (exec nanoid fp o q)).
  apply IH. now apply exec_well_kept.
Qed.

Lemma new_queue_well_kept name : well_kept (new_queue name).
Proof. split; simpl; [constructor | discriminate]. Qed.

(** In a store in good order a job found by [get] carries the id asked for,
    and the records are the jobs [get] finds. *)
Lemma well_kept_stored_id q k j :
  well_kept q -> stored q k = Some j -> id j = Some k.
Proof.
  intros [_ K] G. apply K in G. unfold keyPath_id in G.
  destruct (id j); simpl in G; congruence.
Qed.

Lemma well_kept_In q pk j :
  well_kept q ->
  (In (pk, j) (jobs q) <-> exists k, pk = KStr k /\ stored q k = Some j).
Proof.
  intros [N K]. split.
  - intros H. apply (os_get_iff_In pk j (jobs q) N) in H.
    pose proof (K _ _ H) as I. unfold keyPath_id in I.
    destruct (id j) as [k |]; simpl in I; [| discriminate].
    injection I as <-. eauto.
  - intros [k [-> G]]. now apply os_get_iff_In.
Qed.

Lemma queue_a_well_kept : well_kept queue_a.
Proof.
  exact (run_well_kept sample_nanoid sample_fingerprint
           [OpAdd (TestJob (Some "a") "task1" "input1")] sample_queue
           (new_queue_well_kept "local")).
Qed.

Lemma completed_job_labels j out err :
  queueName (completed_job j out err) = queueName j /\
  jobRunId (completed_job j out err) = jobRunId j /\
  fingerprint (completed_job j out err) = fingerprint j /\
  input (completed_job j out err) = input j /\
  taskType (completed_job j out err) = taskType j.
Proof.
  unfold completed_job. destruct err as [[[d | | |] msg] |]; simpl;
    try (repeat split; reflexivity).
  destruct (_ >=? _); repeat split; reflexivity.
Qed.

(** ** [add] and [get] *)

(** X1. When [add(job)] resolves with an id, [get] of that id resolves with
    the job as passed except for four fields: its [id] is that id, its
    [queueName] is the queue's name whatever the job carried, its [jobRunId]
    is the job's own or else the next id [nanoid] hands out, and its
    [fingerprint] is [makeFingerprint] of the input.  [get] of any other id
    gives what it gave before. *)
Theorem add_then_get :
  forall (nanoid : nat -> string) (makeFingerprint : JsValue -> string)
         (job : Job) (q : Queue) (k : string) (q' : Queue),
    add nanoid makeFingerprint job q = (Resolved k, q') ->
    exists j,
      get k q' = Resolved (Some j) /\
      id j = Some k /\
      queueName j = Some (queue q) /\
      jobRunId j =
        Some (match jobRunId job with
              | Some r => r
              | None => nanoid (match id job with
                                | Some _ => nanoids q
                                | None => S (nanoids q)
                                end)
              end) /\
      fingerprint j = Some (makeFingerprint (input job)) /\
      (taskType j, input j, status j, output j, error j)
        = (taskType job, input job, status job, output job, error job) /\
      (retries j, maxRetries j, runAfter j)
        = (retries job, maxRetries job, runAfter job) /\
      (forall k', k' <> k -> get k' q' = get k' q).
Proof.
  intros nanoid fp job q k q' H.
  destruct (add_resolved nanoid fp job q k q' H) as [E [G S]].
  exists (prepared nanoid fp job q). unfold get. unfold stored in S.
  rewrite S. repeat split.
  - simpl. now rewrite E.
  - simpl. unfold or_nanoid. destruct (jobRunId job), (id job); reflexivity.
  - intros k' N. f_equal.
    destruct (add_fresh nanoid fp job q) as [_ J];
      [now rewrite <- E |].
    rewrite H in J. simpl in J. rewrite J.
    apply os_get_insert_other. rewrite <- E. congruence.
Qed.

Lemma add_then_get_witness :
  exists j,
    get "id-1" (snd (add sample_nanoid sample_fingerprint
                       (TestJob None "task2" "input2") queue_a))
      = Resolved (Some j) /\
    id j = Some "id-1" /\
    queueName j = Some (queue queue_a) /\
    jobRunId j =
      Some (match jobRunId (TestJob None "task2" "input2") with
            | Some r => r
            | None => sample_nanoid
                        (match id (TestJob None "task2" "input2") with
                         | Some _ => nanoids queue_a
                         | None => S (nanoids queue_a)
                         end)
            end) /\
    fingerprint j
      = Some (sample_fingerprint (input (TestJob None "task2" "input2"))) /\
    (taskType j, input j, status j, output j, error j)
      = (taskType (TestJob None "task2" "input2"),
         input (TestJob None "task2" "input2"),
         status (TestJob None "task2" "input2"),
         output (TestJob None "task2" "input2"),
         error (TestJob None "task2" "input2")) /\
    (retries j, maxRetries j, runAfter j)
      = (retries (TestJob None "task2" "input2"),
         maxRetries (TestJob None "task2" "input2"),
         runAfter (TestJob None "task2" "input2")) /\
    (forall k', k' <> "id-1" ->
       get k' (snd (add sample_nanoid sample_fingerprint
                      (TestJob None "task2" "input2") queue_a))
       = get k' queue_a).
Proof.
  apply (add_then_get sample_nanoid sample_fingerprint
           (TestJob None "task2" "input2") queue_a "id-1").
  reflexivity.
Defined.

(** X2. [size()] after [add]: one more when [add] resolved, the same when it
    rejected. *)
Theorem add_counts_in_size :
  forall (nanoid : nat -> string) (makeFingerprint : JsValue -> string)
         (job : Job) (q : Queue),
    size (snd (add nanoid makeFingerprint job q))
    = Resolved (match fst (add nanoid makeFingerprint job q) with
                | Resolved _ => S (os_count (jobs q))
                | _ => os_count (jobs q)
                end).
Proof.
  intros nanoid fp job q. unfold size, os_count. f_equal.
  destruct (stored q (assigned_id nanoid job q)) as [old |] eqn:G.
  - destruct (add_taken nanoid fp job q old G) as [-> ->]. reflexivity.
  - destruct (add_fresh nanoid fp job q G) as [-> ->].
    apply os_insert_length.
Qed.

(** ** What every reachable state keeps *)

Lemma run_labelled nanoid fp ops name :
  forall k j,
    stored (run nanoid fp ops (new_queue name)) k = Some j ->
    labelled name fp j.
Proof.
  unfold run. rewrite <- fold_left_rev_right.
  induction (rev ops) as [| o l IH]; simpl; [discriminate |].
  intros k j G. revert G.
  apply (exec_preserves_records
           (fun _ j => labelled name fp j) nanoid fp o
           (fold_right (fun o q => exec nanoid fp o q) (new_queue name) l)).
  - intros pk j0 G0.
    assert (W0 : well_kept
                   (fold_right (fun o q => exec nanoid fp o q) (new_queue name) l)).
    { rewrite <- (rev_involutive l), fold_left_rev_right.
      apply (run_well_kept nanoid fp (rev l)), new_queue_well_kept. }
    pose proof (proj2 W0 _ _ G0) as I. unfold keyPath_id in I.
    destruct (id j0) as [k0 |]; simpl in I; [| discriminate].
    injection I as <-. exact (IH k0 j0 G0).
  - intros job _. repeat split; simpl.
    + f_equal. rewrite <- (rev_involutive l), fold_left_rev_right.
      apply (queue_run nanoid fp (rev l)).
    + discriminate.
  - intros k0 out err j0 pk _ G0 _.
    destruct (completed_job_labels j0 out err) as [A [B [C [D _]]]].
    destruct (IH k0 j0 G0) as [L1 [L2 L3]].
    unfold labelled. rewrite A, B, C, D. auto.
  - intros k0 j0 pk _ G0 _. exact (IH k0 j0 G0).
Qed.

(** X3. In every state reached from a new queue by [add], [next],
    [complete] and [abort], no two records share a key, and a job that [get]
    finds under an id carries that id, the queue's name, a run id and the
    fingerprint of its own input. *)
Theorem reached_store_in_order :
  forall (nanoid : nat -> string) (makeFingerprint : JsValue -> string)
         (ops : list Op) (name : string),
    NoDup (map fst (jobs (run nanoid makeFingerprint ops (new_queue name)))) /\
    (forall k j,
        get k (run nanoid makeFingerprint ops (new_queue name))
          = Resolved (Some j) ->
        id j = Some k /\ labelled name makeFingerprint j).
Proof.
  intros nanoid fp ops name.
  pose proof (run_well_kept nanoid fp ops (new_queue name)
                (new_queue_well_kept name)) as W.
  split; [exact (proj1 W) |].
  intros k j G. unfold get in G. injection G as G. split.
  - now apply (well_kept_stored_id _ k j W).
  - now apply (run_labelled nanoid fp ops name k j).
Qed.

(** ** [size] *)

(** X4. On a store in good order, [complete], [abort] and [next] leave
    [size()] as it is, whether they settle or reject. *)
Theorem size_kept_by_complete_abort_next :
  forall (q : Queue) (k : string) (out : JsValue) (err : option JobError),
    well_kept q ->
    size (snd (complete k out err q)) = size q /\
    size (snd (abort k q)) = size q /\
    size (snd (next q)) = size q.
Proof.
  intros q k out err W. unfold size, os_count.
  split; [| split].
  - destruct (stored q k) as [j |] eqn:G.
    + pose proof (well_kept_stored_id q k j W G) as I.
      destruct (complete_stored q k j out err G I) as [_ ->].
      rewrite os_put_length. unfold stored in G. now rewrite G.
    + now rewrite complete_absent.
  - destruct (stored q k) as [j |] eqn:G.
    + pose proof (well_kept_stored_id q k j W G) as I.
      destruct (abort_stored q k j G I) as [_ ->].
      rewrite os_put_length. unfold stored in G. now rewrite G.
    + now rewrite abort_absent.
  - now rewrite next_unchanged.
Qed.

Lemma size_kept_by_complete_abort_next_witness :
  size (snd (complete "a" (JsStr "done") None queue_a)) = size queue_a /\
  size (snd (abort "a" queue_a)) = size queue_a /\
  size (snd (next queue_a)) = size queue_a.
Proof.
  apply (size_kept_by_complete_abort_next queue_a "a" (JsStr "done") None).
  exact queue_a_well_kept.
Defined.

(** ** The listings over the indexes [status] and [jobRunId] *)

Lemma status_listing (st : JobStatus) (q : Queue) (j : Job) :
  well_kept q ->
  (In j (idx_getAll keyPath_status (only (KStr (status_name st))) None (jobs q))
   <-> exists k, stored q k = Some j /\ status j = st).
Proof.
  intros W. rewrite idx_getAll_In. split.
  - intros [pk [ik [H1 [H2 H3]]]].
    apply in_range_only in H3. subst ik. injection H2 as H2.
    apply (status_name_inj (status j) st) in H2.
    apply (well_kept_In q pk j W) in H1 as [k [_ G]]. eauto.
  - intros [k [G S]]. exists (KStr k), (KStr (status_name st)).
    split; [apply (well_kept_In q (KStr k) j W); eauto |]. split.
    + unfold keyPath_status. now rewrite S.
    + now apply in_range_only.
Qed.

(** X5. On a store in good order, [processing()] resolves with the jobs
    that [get] finds with status PROCESSING, all of them and no other, and
    [aborting()] likewise with the jobs that are ABORTING. *)
Theorem processing_and_aborting_list_by_status :
  forall (q : Queue),
    well_kept q ->
    exists lp la,
      processing q = Resolved lp /\ aborting q = Resolved la /\
      Forall (fun j => status j = PROCESSING /\
                       exists k, get k q = Resolved (Some j)) lp /\
      Forall (fun j => status j = ABORTING /\
                       exists k, get k q = Resolved (Some j)) la /\
      (forall k j, get k q = Resolved (Some j) ->
         (status j = PROCESSING -> In j lp) /\
         (status j = ABORTING -> In j la)).
Proof.
  intros q W. eexists. eexists.
  split; [reflexivity |]. split; [reflexivity |].
  split; [| split].
  - apply Forall_forall. intros j H.
    apply (status_listing PROCESSING q j W) in H as [k [G S]].
    split; [exact S |]. exists k. unfold get. now rewrite <- G.
  - apply Forall_forall. intros j H.
    apply (status_listing ABORTING q j W) in H as [k [G S]].
    split; [exact S |]. exists k. unfold get. now rewrite <- G.
  - intros k j G. unfold get in G. injection G as G.
    split; intros S; apply status_listing; eauto.
Qed.

Lemma processing_and_aborting_list_by_status_witness :
  exists lp la,
    processing (snd (abort "a" queue_a)) = Resolved lp /\
    aborting (snd (abort "a" queue_a)) = Resolved la /\
    Forall (fun j => status j = PROCESSING /\
                     exists k, get k (snd (abort "a" queue_a))
                               = Resolved (Some j)) lp /\
    Forall (fun j => status j = ABORTING /\
                     exists k, get k (snd (abort "a" queue_a))
                               = Resolved (Some j)) la /\
    (forall k j, get k (snd (abort "a" queue_a)) = Resolved (Some j) ->
       (status j = PROCESSING -> In j lp) /\
       (status j = ABORTING -> In j la)).
Proof.
  apply (processing_and_aborting_list_by_status (snd (abort "a" queue_a))).
  exact (exec_well_kept sample_nanoid sample_fingerprint (OpAbort "a") queue_a
           queue_a_well_kept).
Defined.

(** X6. On a store in good order, [getJobsByRunId(r)] resolves with the
    jobs that [get] finds with [jobRunId = r], all of them and no other. *)
Theorem getJobsByRunId_lists_the_run :
  forall (q : Queue) (r : string),
    well_kept q ->
    exists l,
      getJobsByRunId r q = Resolved l /\
      Forall (fun j => jobRunId j = Some r /\
                       exists k, get k q = Resolved (Some j)) l /\
      (forall k j, get k q = Resolved (Some j) -> jobRunId j = Some r -> In j l).
Proof.
  intros q r W. eexists. split; [reflexivity |]. split.
  - apply Forall_forall. intros j H.
    apply idx_getAll_In in H as [pk [ik [H1 [H2 H3]]]].
    apply in_range_only in H3. subst ik.
    apply (well_kept_In q pk j W) in H1 as [k [_ G]].
    unfold keyPath_jobRunId in H2. split.
    + destruct (jobRunId j); simpl in H2; congruence.
    + exists k. unfold get. now rewrite <- G.
  - intros k j G R. unfold get in G. injection G as G.
    apply idx_getAll_In. exists (KStr k), (KStr r).
    split; [apply (well_kept_In q (KStr k) j W); eauto |]. split.
    + unfold keyPath_jobRunId. now rewrite R.
    + now apply in_range_only.
Qed.

Lemma getJobsByRunId_lists_the_run_witness :
  exists l,
    getJobsByRunId "id-0" queue_a = Resolved l /\
    Forall (fun j => jobRunId j = Some "id-0" /\
                     exists k, get k queue_a = Resolved (Some j)) l /\
    (forall k j, get k queue_a = Resolved (Some j) ->
       jobRunId j = Some "id-0" -> In j l).
Proof.
  apply (getJobsByRunId_lists_the_run queue_a "id-0").
  exact queue_a_well_kept.
Defined.

(** ** [abort] and [complete]: what is written and what is signalled *)

Lemma os_replace_same {V : Type} (k : key) (v : V) (s : store V) :
  os_get k s = Some v -> os_replace k v s = s.
Proof.
  induction s as [| [k' v'] s IH]; simpl; [reflexivity |].
  destruct (key_eqb k k').
  - now intros [= ->].
  - intros G. now rewrite IH.
Qed.

Lemma os_put_same {V : Type} (k : key) (v : V) (s : store V) :
  os_get k s = Some v -> os_put k v s = s.
Proof. intros G. unfold os_put. rewrite G. now apply os_replace_same. Qed.

(** X7. [abort(id)] on a job stored under its id resolves; afterwards [get]
    finds the same job with status ABORTING and every other field as before,
    [aborting()] lists it, and [abortJob(id)] is the last call made to the
    base class.  A second [abort(id)] writes nothing new to the store. *)
Theorem abort_marks_and_signals :
  forall (q : Queue) (k : string) (j : Job),
    stored q k = Some j -> id j = Some k ->
    exists q',
      abort k q = (Resolved tt, q') /\
      get k q' = Resolved (Some (set_status ABORTING j)) /\
      calls q' = (calls q ++ [abortJob k])%list /\
      (exists la, aborting q' = Resolved la /\ In (set_status ABORTING j) la) /\
      jobs (snd (abort k q')) = jobs q'.
Proof.
  intros q k j G I.
  destruct (abort_stored q k j G I) as [R S].
  exists (snd (abort k q)).
  assert (G' : stored (snd (abort k q)) k = Some (set_status ABORTING j)).
  { unfold stored. rewrite S. apply os_get_put_same. }
  split; [| split; [| split; [| split]]].
  - rewrite <- R. now destruct (abort k q).
  - unfold get. now rewrite <- G'.
  - unfold abort. unfold stored in G. rewrite G.
    unfold store_put, keyPath_id. simpl. rewrite I. reflexivity.
  - eexists. split; [reflexivity |].
    apply idx_getAll_In. exists (KStr k), (KStr (status_name ABORTING)).
    split; [apply os_get_In; exact G' |]. split; [reflexivity |].
    now apply in_range_only.
  - destruct (abort_stored (snd (abort k q)) k (set_status ABORTING j) G' I)
      as [_ S'].
    rewrite S'. apply os_put_same. exact G'.
Qed.

Lemma abort_marks_and_signals_witness :
  exists q',
    abort "a" queue_a = (Resolved tt, q') /\
    get "a" q' = Resolved (Some (set_status ABORTING job_a)) /\
    calls q' = (calls queue_a ++ [abortJob "a"])%list /\
    (exists la, aborting q' = Resolved la /\ In (set_status ABORTING job_a) la) /\
    jobs (snd (abort "a" q')) = jobs q'.
Proof.
  apply (abort_marks_and_signals queue_a "a" job_a); reflexivity.
Defined.

Lemma complete_calls q k j out err :
  stored q k = Some j -> id j = Some k ->
  calls (snd (complete k out err q)) =
    if JobStatus_eqb (status (completed_job j out err)) COMPLETED
       || JobStatus_eqb (status (completed_job j out err)) FAILED
    then (calls q
            ++ [onCompleted (Some k) (status (completed_job j out err)) out err])%list
    else calls q.
Proof.
  unfold stored, complete. intros G I. rewrite G.
  unfold store_put, keyPath_id. rewrite completed_job_id, I. simpl.
  unfold Job_id. rewrite completed_job_id, I.
  destruct (_ || _); reflexivity.
Qed.

(** X8. [complete] on a job stored under its id tells the base class, by one
    call of [onCompleted] with the id, the final status, the output and the
    error, exactly when the job ends COMPLETED or FAILED: after a success,
    after an error that is not retryable, and after a retryable error that
    uses up the retries.  After a retryable error with retries left it makes
    no call. *)
Theorem complete_reports_final_states :
  forall (q : Queue) (k : string) (j : Job) (out : JsValue),
    stored q k = Some j -> id j = Some k ->
    calls (snd (complete k out None q))
      = (calls q ++ [onCompleted (Some k) COMPLETED out None])%list /\
    (forall e,
        (forall d, class e <> RetryableJobError d) \/
        retries j + 1 >= maxRetries j ->
        calls (snd (complete k out (Some e) q))
          = (calls q ++ [onCompleted (Some k) FAILED out (Some e)])%list) /\
    (forall d msg,
        retries j + 1 < maxRetries j ->
        calls (snd (complete k out
                      (Some (mkJobError (RetryableJobError d) msg)) q))
          = calls q).
Proof.
  intros q k j out G I. split; [| split].
  - now rewrite (complete_calls q k j out None G I).
  - intros e H. rewrite (complete_calls q k j out (Some e) G I).
    assert (S : status (completed_job j out (Some e)) = FAILED).
    { destruct e as [[d | | |] msg]; try reflexivity.
      destruct H as [H | H]; [exfalso; now apply (H d) |].
      now apply completed_job_retryable. }
    now rewrite S.
  - intros d msg H.
    rewrite (complete_calls q k j out _ G I).
    destruct (completed_job_retryable j out d msg) as [_ P].
    cbv zeta in P. destruct (P H) as [S _]. now rewrite S.
Qed.

Lemma complete_reports_final_states_witness :
  calls (snd (complete "a" (JsStr "done") None queue_a))
    = (calls queue_a ++ [onCompleted (Some "a") COMPLETED (JsStr "done") None])%list /\
  (forall e,
      (forall d, class e <> RetryableJobError d) \/
      retries job_a + 1 >= maxRetries job_a ->
      calls (snd (complete "a" (JsStr "done") (Some e) queue_a))
        = (calls queue_a
          ++ [onCompleted (Some "a") FAILED (JsStr "done") (Some e)])%list) /\
  (forall d msg,
      retries job_a + 1 < maxRetries job_a ->
      calls (snd (complete "a" (JsStr "done")
                    (Some (mkJobError (RetryableJobError d) msg)) queue_a))
        = calls queue_a).
Proof.
  apply (complete_reports_final_states queue_a "a" job_a (JsStr "done"));
    reflexivity.
Defined.

(** X9. A retryable failure with retries left followed by a success:
    [get] then finds the job COMPLETED with the output of the success, and
    still with the message of the failure in [error], the retry it counted,
    and [runAfter] at the failure's [retryDate]. *)
Theorem success_after_retry_keeps_failure_data :
  forall (q : Queue) (k : string) (j : Job) (d : Z) (msg : string)
         (out : JsValue),
    stored q k = Some j -> id j = Some k ->
    retries j + 1 < maxRetries j ->
    exists j',
      get k (snd (complete k out None
                    (snd (complete k JsNull
                            (Some (mkJobError (RetryableJobError d) msg)) q))))
        = Resolved (Some j') /\
      status j' = COMPLETED /\ output j' = out /\
      error j' = Some msg /\ retries j' = retries j + 1 /\ runAfter j' = d.
Proof.
  intros q k j d msg out G I B.
  set (e := mkJobError (RetryableJobError d) msg).
  set (q1 := snd (complete k JsNull (Some e) q)).
  destruct (complete_stored q k j JsNull (Some e) G I) as [_ S1].
  assert (G1 : stored q1 k = Some (completed_job j JsNull (Some e))).
  { unfold stored, q1. rewrite S1. apply os_get_put_same. }
  assert (I1 : id (completed_job j JsNull (Some e)) = Some k)
    by now rewrite completed_job_id.
  destruct (complete_stored q1 k _ out None G1 I1) as [_ S2].
  exists (completed_job (completed_job j JsNull (Some e)) out None).
  split.
  - unfold get. rewrite S2. now rewrite os_get_put_same.
  - destruct (completed_job_retryable j JsNull d msg) as [_ P].
    destruct (P B) as [_ R].
    repeat split.
    + simpl. apply (completed_job_error_message j JsNull e).
    + simpl. apply (completed_job_error_retries j JsNull e).
    + exact R.
Qed.

Lemma success_after_retry_keeps_failure_data_witness :
  exists j',
    get "a" (snd (complete "a" (JsStr "done") None
                    (snd (complete "a" JsNull
                            (Some (mkJobError (RetryableJobError 7) "busy"))
                            queue_a))))
      = Resolved (Some j') /\
    status j' = COMPLETED /\ output j' = JsStr "done" /\
    error j' = Some "busy" /\ retries j' = retries job_a + 1 /\ runAfter j' = 7.
Proof.
  apply (success_after_retry_keeps_failure_data queue_a "a" job_a 7 "busy"
           (JsStr "done")); [reflexivity | reflexivity | simpl; lia].
Defined.

(** ** [peek] and [outputForInput] *)

(** X10. [peek(num)] resolves with the empty list whatever the store holds
    and whatever [num] is: it asks the index [status_runAfter], whose keys
    are arrays, for the one string [JobStatus.PENDING]. *)
Theorem peek_lists_nothing :
  forall (num : nat) (q : Queue), peek num q = Resolved [].
Proof. exact peek_empty. Qed.

(** X12. On a store in good order, when [get] finds no job that is
    COMPLETED with the given task type and the fingerprint of the given
    input, [outputForInput(taskType, input)] resolves with null if its
    transaction is still open once the fingerprint has settled, and rejects
    with an InvalidStateError if the fingerprint settles in a later task.
    Jobs of another status, task type or fingerprint are not looked at. *)
Theorem outputForInput_null_without_match :
  forall (makeFingerprint : JsValue -> string)
         (JSON_parse : string -> option JsValue)
         (Number_toString : Z -> string) (settles_later : bool)
         (tt : string) (inp : JsValue) (q : Queue),
    well_kept q ->
    (forall k j, get k q = Resolved (Some j) ->
       ~ (taskType j = tt /\ fingerprint j = Some (makeFingerprint inp) /\
          status j = COMPLETED)) ->
    outputForInput makeFingerprint JSON_parse Number_toString settles_later
      tt inp q
    = if settles_later
      then Rejected (DOMException "InvalidStateError")
      else Resolved JsNull.
Proof.
  intros fp parse num later tt inp q W N. apply outputForInput_no_match.
  intros pk j H. apply (well_kept_In q pk j W) in H as [k [_ G]].
  apply (N k). unfold get. now rewrite <- G.
Qed.

Lemma outputForInput_null_without_match_witness :
  outputForInput sample_fingerprint (fun _ => None) (fun _ => "0") false
    "task1" (JsObj [("data", JsStr "input1")]) queue_a
  = if false
    then Rejected (DOMException "InvalidStateError")
    else Resolved JsNull.
Proof.
  apply (outputForInput_null_without_match sample_fingerprint (fun _ => None)
           (fun _ => "0") false
           "task1" (JsObj [("data", JsStr "input1")]) queue_a).
  - exact queue_a_well_kept.
  - intros k j G [_ [_ S]].
    assert (H : In (KStr k, j) (jobs queue_a)).
    { apply os_get_In. unfold get in G. congruence. }
    change (jobs queue_a) with [(KStr "a", job_a)] in H.
    destruct H as [E | []]. injection E as _ <-. discriminate S.
Defined.

(** X13. In every state reached from a new queue, if [get] finds a
    COMPLETED job then [outputForInput] called with that job's task type and
    input finds a COMPLETED job of the same task type and fingerprint; if
    its transaction is still open once the fingerprint has settled it settles
    with what [JSON.parse] makes of that job's output written as a string
    (null when the output is falsy, never settling when [JSON.parse]
    throws), and if the fingerprint settles in a later task it rejects with
    an InvalidStateError. *)
Theorem outputForInput_uses_a_COMPLETED_match :
  forall (nanoid : nat -> string) (makeFingerprint : JsValue -> string)
         (JSON_parse : string -> option JsValue)
         (Number_toString : Z -> string) (settles_later : bool)
         (ops : list Op) (name : string) (k : string) (j : Job),
    get k (run nanoid makeFingerprint ops (new_queue name)) = Resolved (Some j) ->
    status j = COMPLETED ->
    exists k' j',
      get k' (run nanoid makeFingerprint ops (new_queue name))
        = Resolved (Some j') /\
      taskType j' = taskType j /\ fingerprint j' = fingerprint j /\
      status j' = COMPLETED /\
      outputForInput makeFingerprint JSON_parse Number_toString settles_later
        (taskType j) (input j)
        (run nanoid makeFingerprint ops (new_queue name))
        = if settles_later
          then Rejected (DOMException "InvalidStateError")
          else reparsed JSON_parse Number_toString (output j').
Proof.
  intros nanoid fp parse num later ops name k j G S.
  set (q := run nanoid fp ops (new_queue name)) in *.
  assert (W : well_kept q)
    by apply (run_well_kept nanoid fp ops _ (new_queue_well_kept name)).
  unfold get in G. injection G as G.
  destruct (run_labelled nanoid fp ops name k j G) as [_ [_ F]].
  destruct (outputForInput_match fp parse num later (taskType j) (input j) q)
    as [pk [j' [H [T [F' [S' O]]]]]].
  { exists (KStr k), j. split; [now apply os_get_In |]. auto. }
  apply (well_kept_In q pk j' W) in H as [k' [_ G']].
  exists k', j'. split; [unfold get; now rewrite <- G' |].
  repeat split; auto. congruence.
Qed.

Lemma outputForInput_uses_a_COMPLETED_match_witness :
  exists k' j',
    get k' (run sample_nanoid sample_fingerprint
              [OpAdd (TestJob (Some "a") "task1" "input1"); OpNext;
               OpComplete "a" output_S1 None] (new_queue "local"))
      = Resolved (Some j') /\
    taskType j' = taskType (set_output output_S1 (set_status COMPLETED job_a)) /\
    fingerprint j'
      = fingerprint (set_output output_S1 (set_status COMPLETED job_a)) /\
    status j' = COMPLETED /\
    outputForInput sample_fingerprint (fun _ => None) (fun _ => "0") false
      (taskType (set_output output_S1 (set_status COMPLETED job_a)))
      (input (set_output output_S1 (set_status COMPLETED job_a)))
      (run sample_nanoid sample_fingerprint
         [OpAdd (TestJob (Some "a") "task1" "input1"); OpNext;
          OpComplete "a" output_S1 None] (new_queue "local"))
      = if false
        then Rejected (DOMException "InvalidStateError")
        else reparsed (fun _ => None) (fun _ => "0") (output j').
Proof.
  apply (outputForInput_uses_a_COMPLETED_match sample_nanoid sample_fingerprint
           (fun _ => None) (fun _ => "0") false
           [OpAdd (TestJob (Some "a") "task1" "input1"); OpNext;
            OpComplete "a" output_S1 None] "local" "a"
           (set_output output_S1 (set_status COMPLETED job_a)));
    reflexivity.
Defined.

(** ** The calls to the base class *)

(** X14. The record of calls to the base class only grows, by at most one
    call per operation: [add] and [next] make none, [complete] makes at most
    one [onCompleted], [abort] at most one [abortJob]. *)
Theorem base_calls_only_grow :
  forall (nanoid : nat -> string) (makeFingerprint : JsValue -> string)
         (o : Op) (q : Queue),
    exists l,
      calls (exec nanoid makeFingerprint o q) = (calls q ++ l)%list /\
      match o with
      | OpAdd _ | OpNext => l = []
      | OpComplete _ _ _ =>
          l = [] \/ exists i st out err, l = [onCompleted i st out err]
      | OpAbort k => l = [] \/ l = [abortJob k]
      end.
Proof.
  intros nanoid fp o q. destruct o as [job | | k out err | k]; simpl.
  - exists []. rewrite app_nil_r. split; [| reflexivity].
    unfold add. destruct (os_add _ _ _); reflexivity.
  - exists []. rewrite app_nil_r. now rewrite next_unchanged.
  - unfold complete.
    destruct (os_get _ _) as [j0 |];
      [| exists []; rewrite app_nil_r; auto].
    destruct (store_put _ _);
      [| exists []; rewrite app_nil_r; auto].
    simpl. destruct (_ || _).
    + eexists. split; [reflexivity |]. right. eauto.
    + exists []. rewrite app_nil_r. auto.
  - unfold abort.
    destruct (os_get _ _) as [j0 |];
      [| exists []; rewrite app_nil_r; auto].
    destruct (store_put _ _);
      [| exists []; rewrite app_nil_r; auto].
    eexists. split; [reflexivity |]. now right.
Qed.

(** ** The test job *)

Lemma starts_with_Some (pat s rest : string) :
  starts_with pat s = Some rest <-> s = pat ++ rest.
Proof.
  revert s. induction pat as [| p pat IH]; intros s;
    cbn [starts_with append].
  - split; congruence.
  - destruct s as [| c s]; [split; discriminate |].
    destruct (Ascii.eqb p c) eqn:E.
    + apply Ascii.eqb_eq in E. subst c. rewrite IH. split; congruence.
    + apply Ascii.eqb_neq in E. split; [discriminate | congruence].
Qed.

Lemma replace_first_eq (pat rep s : string) :
  replace_first pat rep s =
    match starts_with pat s with
    | Some rest => rep ++ rest
    | None =>
        match s with
        | EmptyString => EmptyString
        | String c s' => String c (replace_first pat rep s')
        end
    end.
Proof. destruct s; reflexivity. Qed.

(** The replacement happens at the first place where the pattern occurs. *)
Lemma replace_first_at_first_occurrence (pat rep pre post : string) :
  (forall a b, pre ++ pat ++ post = a ++ pat ++ b ->
               (String.length pre <= String.length a)%nat) ->
  replace_first pat rep (pre ++ pat ++ post) = pre ++ rep ++ post.
Proof.
  induction pre as [| c pre IH]; intros F; rewrite replace_first_eq.
  - cbn [append].
    now rewrite (proj2 (starts_with_Some pat (pat ++ post) post) eq_refl).
  - destruct (starts_with pat (String c pre ++ pat ++ post)) as [rest |] eqn:S.
    + apply starts_with_Some in S.
      specialize (F EmptyString rest S). simpl in F. lia.
    + cbn [append]. f_equal. apply IH.
      intros a b E. specialize (F (String c a) b).
      cbn [append] in F. rewrite E in F. specialize (F eq_refl).
      simpl in F. lia.
Qed.

(** Without an occurrence of the pattern the string is returned as it is. *)
Lemma replace_first_no_occurrence (pat rep s : string) :
  (forall a b, s <> a ++ pat ++ b) -> replace_first pat rep s = s.
Proof.
  induction s as [| c s IH]; intros F; rewrite replace_first_eq.
  - destruct (starts_with pat EmptyString) as [rest |] eqn:S;
      [| reflexivity].
    apply starts_with_Some in S. exfalso. now apply (F EmptyString rest).
  - destruct (starts_with pat (String c s)) as [rest |] eqn:S.
    + apply starts_with_Some in S. exfalso. now apply (F EmptyString rest).
    + f_equal. apply IH.
      intros a b E. apply (F (String c a) b). cbn [append]. now rewrite E.
Qed.

(** X15. [TestJob.execute] on an input whose [data] is a string in which
    "input" occurs returns [{result: r}], where [r] is [data] with the first
    occurrence of "input", from the left, replaced by "output". *)
Theorem TestJob_execute_replaces_first_input :
  forall (job : Job) (data pre post : string),
    js_field "data" (input job) = Some (JsStr data) ->
    data = pre ++ "input" ++ post ->
    (forall a b, data = a ++ "input" ++ b ->
                 (String.length pre <= String.length a)%nat) ->
    TestJob_execute job
      = Some (JsObj [("result", JsStr (pre ++ "output" ++ post))]).
Proof.
  intros job data pre post D E F. unfold TestJob_execute. rewrite D.
  subst data. now rewrite replace_first_at_first_occurrence.
Qed.

Lemma TestJob_execute_replaces_first_input_witness :
  TestJob_execute (TestJob None "task2" "input2")
    = Some (JsObj [("result", JsStr ("" ++ "output" ++ "2"))]).
Proof.
  apply (TestJob_execute_replaces_first_input (TestJob None "task2" "input2")
           "input2" "" "2").
  - reflexivity.
  - reflexivity.
  - intros a b _. simpl. lia.
Defined.

(** X16. [TestJob.execute] on an input whose [data] is a string in which
    "input" does not occur returns [{result: data}]. *)
Theorem TestJob_execute_keeps_other_data :
  forall (job : Job) (data : string),
    js_field "data" (input job) = Some (JsStr data) ->
    (forall a b, data <> a ++ "input" ++ b) ->
    TestJob_execute job = Some (JsObj [("result", JsStr data)]).
Proof.
  intros job data D F. unfold TestJob_execute. rewrite D.
  now rewrite replace_first_no_occurrence.
Qed.

Lemma TestJob_execute_keeps_other_data_witness :
  TestJob_execute (TestJob None "task1" "in")
    = Some (JsObj [("result", JsStr "in")]).
Proof.
  apply (TestJob_execute_keeps_other_data (TestJob None "task1" "in") "in").
  - reflexivity.
  - intros a b E.
    destruct a as [| c1 [| c2 [| c3 a]]]; simpl in E; discriminate E.
Defined.

(** Scenario S3's last job: the data "input2" gives the result "output2". *)
Example TestJob_execute_input2 :
  TestJob_execute (TestJob None "task2" "input2")
  = Some (JsObj [("result", JsStr "output2")]).
Proof. reflexivity. Qed.
